(** * campaign-service: the cross-service statistics client

    A shallow embedding of [src/lib/service-client.ts]: the upstream stat
    client [fetchStats], the four-way fan-out [getAggregatedStats] with its
    additive merge [addSendingStats], the by-model variant [getStatsByModel],
    the pure grouping function [aggregateCompaniesFromLeads] and the lead
    loader [getLeadsForRuns] with [fetchData].

    Modelling conventions.
    - Counters are JSON integers; a JavaScript number is an integer or [NaN]
      (the only non-integer the arithmetic of this file can produce from
      integer counters).  This is exact for counters and sums inside the
      safe-integer range; a statement that depends on the range, or on the
      counters being numbers at all, says so in its hypotheses.
    - A parsed statistics payload is a JavaScript object read by property
      name: a finite map from property names to values.  A property can be
      absent ([undefined] on read), [null], or a number.  A payload that is
      not an object (a number, a string, an array) has none of the counter
      properties and reads like the empty object.
    - [fetch] is the only effect.  The outside world is an oracle answering
      the n-th request issued since the start of the trace; the state is the
      list of requests issued so far.  [console.warn] diagnostics are not
      part of the model.
    - [Promise.all] over async calls: every call runs synchronously up to
      its first [await], which is the [fetch] itself, so the requests leave
      in argument order; each result depends on its own response only. *)

From stdpp Require Import gmap strings list fin_maps pretty.
From Stdlib Require Import ZArith.
From Stdlib Require PrimFloat.

Local Open Scope string_scope.

(** ** JavaScript values *)

(** A JavaScript number as far as counters are concerned. *)
Inductive JsNumber : Type :=
| Num (z : Z)
| NaN.

#[global] Instance JsNumber_eq_dec : EqDecision JsNumber.
Proof. solve_decision. Defined.

(** A value stored under a property of a parsed payload. *)
Inductive JsonCounter : Type :=
| JNull
| JNum (z : Z).

(** A parsed payload object; reading a missing property gives [None]
    (JavaScript [undefined]). *)
Abbreviation StatsObject := (gmap string JsonCounter).

(** [ToNumber] on a property read: [undefined] is [NaN], [null] is [0]. *)
Definition to_number (v : option JsonCounter) : JsNumber :=
  match v with
  | None => NaN
  | Some JNull => Num 0
  | Some (JNum z) => Num z
  end.

(** Numeric [+]. *)
Definition js_add (a b : JsNumber) : JsNumber :=
  match a, b with
  | Num x, Num y => Num (x + y)%Z
  | _, _ => NaN
  end.

(** [a + b] on two property reads, neither of which is a string. *)
Definition js_plus (a b : option JsonCounter) : JsNumber :=
  js_add (to_number a) (to_number b).

(** [v ?? 0] on a property read. *)
Definition nullish_or_zero (v : option JsonCounter) : JsNumber :=
  match v with
  | Some (JNum z) => Num z
  | Some JNull | None => Num 0
  end.

(** Truthiness of [string | null] and [string | undefined]. *)
Definition truthy (v : option string) : bool :=
  match v with
  | Some s => negb (String.eqb s "")
  | None => false
  end.

(** [v || null] on [string | null]. *)
Definition or_null (v : option string) : option string :=
  if truthy v then v else None.

(** [v || d] on [string | undefined]. *)
Definition or_default (v : option string) (d : string) : string :=
  match v with
  | Some s => if String.eqb s "" then d else s
  | None => d
  end.

(** ** The HTTP world *)

(** The argument of one [fetch] call of the statistics client: always a
    POST whose body is [JSON.stringify({ runIds })]. *)
Record Request : Type := mkRequest {
  url : string;
  method : string;
  headers : gmap string string;
  body_runIds : list string;
}.

(** [error.cause] when it is an object; [code] is its string code, if any. *)
Record Cause : Type := mkCause { code : option string }.

(** What a rejected promise carries. *)
Inductive Thrown : Type :=
| ThrownError (message : string) (cause : option Cause)
| ThrownOther.

(** [data.stats] of a parsed body. *)
Inductive StatsField (T : Type) : Type :=
| StatsAbsent
| StatsNull
| StatsValue (v : T).
Arguments StatsAbsent {T}.
Arguments StatsNull {T}.
Arguments StatsValue {T} v.

(** What [await response.json()] gives: a rejection, the JSON value [null]
    (reading a property of it throws), or any other value, of which only
    the [stats] property is read.  A [stats] that is present holds a value
    of the type the caller casts it to. *)
Inductive JsonResult (T : Type) : Type :=
| JsonRejects (e : Thrown)
| JsonNullBody
| JsonBody (stats : StatsField T).
Arguments JsonRejects {T} e.
Arguments JsonNullBody {T}.
Arguments JsonBody {T} stats.

Record Response (T : Type) : Type := mkResponse {
  ok : bool;
  status : nat;
  json : JsonResult T;
}.
Arguments mkResponse {T} ok status json.
Arguments ok {T} r.
Arguments status {T} r.
Arguments json {T} r.

Inductive FetchOutcome (T : Type) : Type :=
| Resolves (r : Response T)
| Rejects (e : Thrown).
Arguments Resolves {T} r.
Arguments Rejects {T} e.

(** The outside world: the answer to a request, given how many requests
    were issued before it. *)
Definition World (T : Type) : Type := nat → Request → FetchOutcome T.

(** Computations that issue requests: a state monad over the request log. *)
Definition Fetching (A : Type) : Type := list Request → A * list Request.

#[global] Instance Fetching_ret : MRet Fetching := λ A a log, (a, log).

#[global] Instance Fetching_bind : MBind Fetching :=
  λ A B k m log, let '(a, log') := m log in k a log'.

(** [await fetch(url, init)]. *)
Definition fetch {T} (world : World T) (req : Request) : Fetching (FetchOutcome T) :=
  λ log, (world (length log) req, (log ++ [req])%list).

(** The message of the [TypeError] thrown by [data.stats] when [data] is
    [null] (V8 wording). *)
Definition null_property_message : string :=
  "Cannot read properties of null (reading 'stats')".

(** ** Result types *)

Inductive ServiceResult (T : Type) : Type :=
| Ok (data : T)
| Err (service : string) (error : string).
Arguments Ok {T} data.
Arguments Err {T} service error.

Definition is_ok {T} (r : ServiceResult T) : bool :=
  match r with Ok _ => true | Err _ _ => false end.

Record StatsError : Type := mkStatsError {
  service : string;
  error : string;
}.

(** The [catch] clause shared by [fetchStats] and [getStatsByModel]:
    [cause?.code === 'ECONNREFUSED' ? 'connection refused'
       : (error instanceof Error ? error.message : 'unknown error')],
    where [cause] is [error.cause] for an [Error] that has one, else [null]. *)
Definition catch_message (e : Thrown) : string :=
  let cause := match e with
               | ThrownError _ c => c
               | ThrownOther => None
               end in
  if bool_decide (cause ≫= code = Some "ECONNREFUSED")
  then "connection refused"
  else match e with
       | ThrownError m _ => m
       | ThrownOther => "unknown error"
       end.

(** [`HTTP ${response.status}`]. *)
Definition http_message (st : nat) : string := "HTTP " +:+ pretty st.

(** ** Result records *)

(** [EmailSendingStats] as [addSendingStats] produces it: every field is the
    result of a numeric [+]. *)
Module Sending.
Record t : Type := mk {
  emailsSent : JsNumber;
  emailsOpened : JsNumber;
  emailsClicked : JsNumber;
  emailsReplied : JsNumber;
  emailsBounced : JsNumber;
  repliesWillingToMeet : JsNumber;
  repliesInterested : JsNumber;
  repliesNotInterested : JsNumber;
  repliesOutOfOffice : JsNumber;
  repliesUnsubscribe : JsNumber;
}.
End Sending.

Record AggregatedStats : Type := mkAggregatedStats {
  leadsFound : JsNumber;
  emailsGenerated : JsNumber;
  emailsSent : JsNumber;
  emailsOpened : JsNumber;
  emailsClicked : JsNumber;
  emailsReplied : JsNumber;
  emailsBounced : JsNumber;
  repliesWillingToMeet : JsNumber;
  repliesInterested : JsNumber;
  repliesNotInterested : JsNumber;
  repliesOutOfOffice : JsNumber;
  repliesUnsubscribe : JsNumber;
}.

Record AggregatedStatsResult : Type := mkAggregatedStatsResult {
  stats : AggregatedStats;
  errors : list StatsError;
}.

Record ModelStats : Type := mkModelStats {
  model : string;
  count : Z;
  runIds : list string;
}.

Module ByModel.
Record ModelStatsResult : Type := mk {
  stats : list ModelStats;
  errors : list StatsError;
}.
End ByModel.

(** ** The upstream stat client *)

(** The [headers] object of [fetchStats]. *)
Definition stats_headers (clerkOrgId : string) (apiKey : option string)
  : gmap string string :=
  let headers : gmap string string :=
    <["X-Clerk-Org-Id" := clerkOrgId]> {["Content-Type" := "application/json"]} in
  match apiKey with
  | Some k => if String.eqb k "" then headers else <["X-API-Key" := k]> headers
  | None => headers
  end.

(** The [try] block of [fetchStats]: [inl] is a thrown value on its way to
    the [catch] clause, [inr] a [return]. *)
Definition fetchStats_try {T} (world : World T)
    (url serviceName clerkOrgId : string) (body : list string)
    (apiKey : option string) : Fetching (Thrown + ServiceResult T) :=
  let headers := stats_headers clerkOrgId apiKey in
  response ← fetch world (mkRequest url "POST" headers body);
  match response with
  | Rejects e => mret (inl e)
  | Resolves response =>
      if negb (ok response) then
        let msg := http_message (status response) in
        mret (inr (Err serviceName msg))
      else
        match json response with
        | JsonRejects e => mret (inl e)
        | JsonNullBody => mret (inl (ThrownError null_property_message None))
        | JsonBody StatsAbsent | JsonBody StatsNull =>
            mret (inr (Err serviceName "no stats in response"))
        | JsonBody (StatsValue v) => mret (inr (Ok v))
        end
  end.

Definition fetchStats {T} (world : World T)
    (url serviceName clerkOrgId : string) (body : list string)
    (apiKey : option string) : Fetching (ServiceResult T) :=
  attempt ← fetchStats_try world url serviceName clerkOrgId body apiKey;
  match attempt with
  | inr result => mret result
  | inl error =>
      let msg := catch_message error in
      mret (Err serviceName msg)
  end.

(** ** Merging *)

Definition EMPTY_SENDING_STATS : StatsObject :=
  list_to_map [
    ("emailsSent", JNum 0); ("emailsOpened", JNum 0); ("emailsClicked", JNum 0);
    ("emailsReplied", JNum 0); ("emailsBounced", JNum 0);
    ("repliesWillingToMeet", JNum 0); ("repliesInterested", JNum 0);
    ("repliesNotInterested", JNum 0);
    ("repliesOutOfOffice", JNum 0); ("repliesUnsubscribe", JNum 0) ].

Definition addSendingStats (a b : StatsObject) : Sending.t :=
  {| Sending.emailsSent := js_plus (a !! "emailsSent") (b !! "emailsSent");
     Sending.emailsOpened := js_plus (a !! "emailsOpened") (b !! "emailsOpened");
     Sending.emailsClicked := js_plus (a !! "emailsClicked") (b !! "emailsClicked");
     Sending.emailsReplied := js_plus (a !! "emailsReplied") (b !! "emailsReplied");
     Sending.emailsBounced := js_plus (a !! "emailsBounced") (b !! "emailsBounced");
     Sending.repliesWillingToMeet :=
       js_plus (a !! "repliesWillingToMeet") (b !! "repliesWillingToMeet");
     Sending.repliesInterested :=
       js_plus (a !! "repliesInterested") (b !! "repliesInterested");
     Sending.repliesNotInterested :=
       js_plus (a !! "repliesNotInterested") (b !! "repliesNotInterested");
     Sending.repliesOutOfOffice :=
       js_plus (a !! "repliesOutOfOffice") (b !! "repliesOutOfOffice");
     Sending.repliesUnsubscribe :=
       js_plus (a !! "repliesUnsubscribe") (b !! "repliesUnsubscribe") |}.

Definition emptyStats : AggregatedStats :=
  {| leadsFound := Num 0; emailsGenerated := Num 0;
     emailsSent := Num 0; emailsOpened := Num 0; emailsClicked := Num 0;
     emailsReplied := Num 0; emailsBounced := Num 0;
     repliesWillingToMeet := Num 0; repliesInterested := Num 0;
     repliesNotInterested := Num 0;
     repliesOutOfOffice := Num 0; repliesUnsubscribe := Num 0 |}.

(** [if (!result.ok) errors.push({ service: result.service, error: result.error })]. *)
Definition push_error {T} (result : ServiceResult T) (errors : list StatsError)
  : list StatsError :=
  match result with
  | Ok _ => errors
  | Err s e => (errors ++ [mkStatsError s e])%list
  end.

(** [result.ok ? result.data : EMPTY_SENDING_STATS]. *)
Definition data_or_empty (result : ServiceResult StatsObject) : StatsObject :=
  match result with
  | Ok data => data
  | Err _ _ => EMPTY_SENDING_STATS
  end.

(** [result.ok ? (result.data[field] ?? 0) : 0]. *)
Definition field_or_zero (result : ServiceResult StatsObject) (field : string)
  : JsNumber :=
  match result with
  | Ok data => nullish_or_zero (data !! field)
  | Err _ _ => Num 0
  end.

(** The part of [getAggregatedStats] after the [await]: collect the errors
    in call order, sum the two sending providers, build the result. *)
Definition collect_and_merge
    (apolloResult emailGenResult postmarkResult instantlyResult
       : ServiceResult StatsObject) : AggregatedStatsResult :=
  let errors : list StatsError := [] in
  let errors := push_error apolloResult errors in
  let errors := push_error emailGenResult errors in
  let errors := push_error postmarkResult errors in
  let errors := push_error instantlyResult errors in
  let postmarkData := data_or_empty postmarkResult in
  let instantlyData := data_or_empty instantlyResult in
  let emailStats := addSendingStats postmarkData instantlyData in
  {| stats :=
       {| leadsFound := field_or_zero apolloResult "leadsFound";
          emailsGenerated := field_or_zero emailGenResult "emailsGenerated";
          emailsSent := Sending.emailsSent emailStats;
          emailsOpened := Sending.emailsOpened emailStats;
          emailsClicked := Sending.emailsClicked emailStats;
          emailsReplied := Sending.emailsReplied emailStats;
          emailsBounced := Sending.emailsBounced emailStats;
          repliesWillingToMeet := Sending.repliesWillingToMeet emailStats;
          repliesInterested := Sending.repliesInterested emailStats;
          repliesNotInterested := Sending.repliesNotInterested emailStats;
          repliesOutOfOffice := Sending.repliesOutOfOffice emailStats;
          repliesUnsubscribe := Sending.repliesUnsubscribe emailStats |};
     errors := errors |}.

(** ** The configured client *)

Section Client.
(** [process.env] when the module is loaded. *)
Variable process_env : gmap string string.

Definition APOLLO_SERVICE_URL : string :=
  or_default (process_env !! "APOLLO_SERVICE_URL") "http://localhost:3003".
Definition EMAILGENERATION_SERVICE_URL : string :=
  or_default (process_env !! "EMAILGENERATION_SERVICE_URL") "http://localhost:3004".
Definition POSTMARK_SERVICE_URL : string :=
  or_default (process_env !! "POSTMARK_SERVICE_URL") "http://localhost:3006".
Definition INSTANTLY_SERVICE_URL : string :=
  or_default (process_env !! "INSTANTLY_SERVICE_URL") "http://localhost:3007".

Definition APOLLO_SERVICE_API_KEY : option string :=
  process_env !! "APOLLO_SERVICE_API_KEY".
Definition EMAILGENERATION_SERVICE_API_KEY : option string :=
  process_env !! "EMAILGENERATION_SERVICE_API_KEY".
Definition POSTMARK_SERVICE_API_KEY : option string :=
  process_env !! "POSTMARK_SERVICE_API_KEY".
Definition INSTANTLY_SERVICE_API_KEY : option string :=
  process_env !! "INSTANTLY_SERVICE_API_KEY".

(** The four calls under [Promise.all], in argument order. *)
Definition dispatch (world : World StatsObject) (body : list string)
    (clerkOrgId : string)
  : Fetching (ServiceResult StatsObject * ServiceResult StatsObject *
              ServiceResult StatsObject * ServiceResult StatsObject) :=
  apolloResult ← fetchStats world (APOLLO_SERVICE_URL +:+ "/stats")
    "apollo" clerkOrgId body APOLLO_SERVICE_API_KEY;
  emailGenResult ← fetchStats world (EMAILGENERATION_SERVICE_URL +:+ "/stats")
    "emailgen" clerkOrgId body EMAILGENERATION_SERVICE_API_KEY;
  postmarkResult ← fetchStats world (POSTMARK_SERVICE_URL +:+ "/stats")
    "postmark" clerkOrgId body POSTMARK_SERVICE_API_KEY;
  instantlyResult ← fetchStats world (INSTANTLY_SERVICE_URL +:+ "/stats")
    "instantly" clerkOrgId body INSTANTLY_SERVICE_API_KEY;
  mret (apolloResult, emailGenResult, postmarkResult, instantlyResult).

Definition getAggregatedStats (world : World StatsObject)
    (runIds : list string) (clerkOrgId : string)
  : Fetching AggregatedStatsResult :=
  if bool_decide (length runIds = 0) then
    mret {| stats := emptyStats; errors := [] |}
  else
    let body := runIds in
    '(apolloResult, emailGenResult, postmarkResult, instantlyResult) ←
      dispatch world body clerkOrgId;
    mret (collect_and_merge apolloResult emailGenResult postmarkResult
            instantlyResult).

(** The [headers] object of [getStatsByModel]. *)
Definition by_model_headers : gmap string string :=
  let headers : gmap string string := {["Content-Type" := "application/json"]} in
  match EMAILGENERATION_SERVICE_API_KEY with
  | Some k => if String.eqb k "" then headers else <["X-API-Key" := k]> headers
  | None => headers
  end.

(** The [try] block of [getStatsByModel]. *)
Definition getStatsByModel_try (world : World (list ModelStats))
    (runIds : list string) : Fetching (Thrown + ByModel.ModelStatsResult) :=
  let headers := by_model_headers in
  response ← fetch world
    (mkRequest (EMAILGENERATION_SERVICE_URL +:+ "/stats/by-model") "POST"
       headers runIds);
  match response with
  | Rejects e => mret (inl e)
  | Resolves response =>
      if negb (ok response) then
        let msg := http_message (status response) in
        mret (inr (ByModel.mk [] [mkStatsError "emailgen" msg]))
      else
        match json response with
        | JsonRejects e => mret (inl e)
        | JsonNullBody => mret (inl (ThrownError null_property_message None))
        | JsonBody StatsAbsent | JsonBody StatsNull =>
            mret (inr (ByModel.mk [] []))
        | JsonBody (StatsValue v) => mret (inr (ByModel.mk v []))
        end
  end.

Definition getStatsByModel (world : World (list ModelStats))
    (runIds : list string) : Fetching ByModel.ModelStatsResult :=
  if bool_decide (length runIds = 0) then mret (ByModel.mk [] [])
  else
    attempt ← getStatsByModel_try world runIds;
    match attempt with
    | inr result => mret result
    | inl error =>
        let msg := catch_message error in
        mret (ByModel.mk [] [mkStatsError "emailgen" msg])
    end.
End Client.

(** ** Grouping leads by company *)

Module LeadData.
Record t : Type := mk {
  id : string;
  firstName : option string;
  lastName : option string;
  email : option string;
  title : option string;
  organizationName : option string;
  organizationDomain : option string;
  organizationIndustry : option string;
  organizationSize : option string;
  linkedinUrl : option string;
  enrichmentRunId : option string;
  createdAt : string;
}.
End LeadData.

(** The value type of [companyMap]. *)
Module CompanyEntry.
Record t : Type := mk {
  name : string;
  domain : option string;
  industry : option string;
  employeeCount : option string;
  leadsCount : nat;
  enrichmentRunIds : list string;
}.
End CompanyEntry.

Module CompanyData.
Record t : Type := mk {
  id : string;
  name : string;
  domain : option string;
  industry : option string;
  employeeCount : option string;
  leadsCount : nat;
  enrichmentRunIds : list string;
}.
End CompanyData.

(** A JavaScript [Map] with string keys: the bindings and the keys in
    insertion order. *)
Record JsMap (V : Type) : Type := mkJsMap {
  bindings : gmap string V;
  key_order : list string;
}.
Arguments mkJsMap {V} bindings key_order.
Arguments bindings {V} _.
Arguments key_order {V} _.

Definition JsMap_new {V} : JsMap V := mkJsMap ∅ [].

Definition JsMap_get {V} (k : string) (m : JsMap V) : option V := bindings m !! k.

(** [map.set(k, v)]: a new key goes last, an old key keeps its place. *)
Definition JsMap_set {V} (k : string) (v : V) (m : JsMap V) : JsMap V :=
  mkJsMap (<[k := v]> (bindings m))
    (match bindings m !! k with
     | Some _ => key_order m
     | None => (key_order m ++ [k])%list
     end).

(** Writing to the properties of the object stored under [k]: the map holds
    a reference, so the binding changes and the key keeps its place. *)
Definition JsMap_mutate {V} (k : string) (f : V → V) (m : JsMap V) : JsMap V :=
  mkJsMap (alter f k (bindings m)) (key_order m).

(** [Array.from(map.entries())]. *)
Definition JsMap_entries {V} (m : JsMap V) : list (string * V) :=
  omap (λ k, (k,.) <$> bindings m !! k) (key_order m).

(** The property writes on [existing], an object held by the map. *)
Definition bump (lead : LeadData.t) (existing : CompanyEntry.t) : CompanyEntry.t :=
  {| CompanyEntry.name := CompanyEntry.name existing;
     CompanyEntry.domain := CompanyEntry.domain existing;
     CompanyEntry.industry := CompanyEntry.industry existing;
     CompanyEntry.employeeCount := CompanyEntry.employeeCount existing;
     CompanyEntry.leadsCount := S (CompanyEntry.leadsCount existing);
     CompanyEntry.enrichmentRunIds :=
       match LeadData.enrichmentRunId lead with
       | Some r =>
           if truthy (Some r)
           then (CompanyEntry.enrichmentRunIds existing ++ [r])%list
           else CompanyEntry.enrichmentRunIds existing
       | None => CompanyEntry.enrichmentRunIds existing
       end |}.

(** The object stored for the first lead of a company. *)
Definition fresh (orgName : string) (lead : LeadData.t) : CompanyEntry.t :=
  {| CompanyEntry.name := orgName;
     CompanyEntry.domain := or_null (LeadData.organizationDomain lead);
     CompanyEntry.industry := or_null (LeadData.organizationIndustry lead);
     CompanyEntry.employeeCount := or_null (LeadData.organizationSize lead);
     CompanyEntry.leadsCount := 1;
     CompanyEntry.enrichmentRunIds :=
       match LeadData.enrichmentRunId lead with
       | Some r => if truthy (Some r) then [r] else []
       | None => []
       end |}.

(** One iteration of [for (const lead of leads)]. *)
Definition group_lead (companyMap : JsMap CompanyEntry.t) (lead : LeadData.t)
  : JsMap CompanyEntry.t :=
  match LeadData.organizationName lead with
  | None => companyMap
  | Some orgName =>
      if negb (truthy (Some orgName)) then companyMap
      else
        match JsMap_get orgName companyMap with
        | Some existing => JsMap_mutate orgName (bump lead) companyMap
        | None => JsMap_set orgName (fresh orgName lead) companyMap
        end
  end.

Definition aggregateCompaniesFromLeads (leads : list LeadData.t)
  : list CompanyData.t :=
  let companyMap := foldl group_lead JsMap_new leads in
  imap (λ index '(_, data),
          {| CompanyData.id := "company-" +:+ pretty index;
             CompanyData.name := CompanyEntry.name data;
             CompanyData.domain := CompanyEntry.domain data;
             CompanyData.industry := CompanyEntry.industry data;
             CompanyData.employeeCount := CompanyEntry.employeeCount data;
             CompanyData.leadsCount := CompanyEntry.leadsCount data;
             CompanyData.enrichmentRunIds := CompanyEntry.enrichmentRunIds data |})
       (JsMap_entries companyMap).

(** * Vocabulary for the statements *)

(** The four upstreams of [getAggregatedStats], in dispatch order. *)
Inductive Provider : Type := Apollo | EmailGen | Postmark | Instantly.

#[global] Instance Provider_eq_dec : EqDecision Provider.
Proof. solve_decision. Defined.

Definition providers : list Provider := [Apollo; EmailGen; Postmark; Instantly].

Definition provider_name (p : Provider) : string :=
  match p with
  | Apollo => "apollo"
  | EmailGen => "emailgen"
  | Postmark => "postmark"
  | Instantly => "instantly"
  end.

(** Position of the provider's call under [Promise.all]. *)
Definition provider_index (p : Provider) : nat :=
  match p with
  | Apollo => 0
  | EmailGen => 1
  | Postmark => 2
  | Instantly => 3
  end.

(** The request [dispatch] sends to a provider. *)
Definition upstream_request (process_env : gmap string string) (p : Provider)
    (body : list string) (clerkOrgId : string) : Request :=
  match p with
  | Apollo =>
      mkRequest (APOLLO_SERVICE_URL process_env +:+ "/stats") "POST"
        (stats_headers clerkOrgId (APOLLO_SERVICE_API_KEY process_env)) body
  | EmailGen =>
      mkRequest (EMAILGENERATION_SERVICE_URL process_env +:+ "/stats") "POST"
        (stats_headers clerkOrgId (EMAILGENERATION_SERVICE_API_KEY process_env)) body
  | Postmark =>
      mkRequest (POSTMARK_SERVICE_URL process_env +:+ "/stats") "POST"
        (stats_headers clerkOrgId (POSTMARK_SERVICE_API_KEY process_env)) body
  | Instantly =>
      mkRequest (INSTANTLY_SERVICE_URL process_env +:+ "/stats") "POST"
        (stats_headers clerkOrgId (INSTANTLY_SERVICE_API_KEY process_env)) body
  end.

(** What the world answers to the provider's request when the four calls
    start from the request log [log]. *)
Definition upstream_answer (process_env : gmap string string)
    (world : World StatsObject) (body : list string) (clerkOrgId : string)
    (log : list Request) (p : Provider) : FetchOutcome StatsObject :=
  world (length log + provider_index p)%nat
        (upstream_request process_env p body clerkOrgId).

(** The provider's component of the tuple [Promise.all] resolves to. *)
Definition outcome_of
    (results : ServiceResult StatsObject * ServiceResult StatsObject *
               ServiceResult StatsObject * ServiceResult StatsObject)
    (p : Provider) : ServiceResult StatsObject :=
  let '(apolloResult, emailGenResult, postmarkResult, instantlyResult) := results in
  match p with
  | Apollo => apolloResult
  | EmailGen => emailGenResult
  | Postmark => postmarkResult
  | Instantly => instantlyResult
  end.

(** The fields of [AggregatedStats]. *)
Inductive StatField : Type :=
| LeadsFound | EmailsGenerated
| EmailsSent | EmailsOpened | EmailsClicked | EmailsReplied | EmailsBounced
| RepliesWillingToMeet | RepliesInterested | RepliesNotInterested
| RepliesOutOfOffice | RepliesUnsubscribe.

Definition stat (f : StatField) (s : AggregatedStats) : JsNumber :=
  match f with
  | LeadsFound => leadsFound s
  | EmailsGenerated => emailsGenerated s
  | EmailsSent => emailsSent s
  | EmailsOpened => emailsOpened s
  | EmailsClicked => emailsClicked s
  | EmailsReplied => emailsReplied s
  | EmailsBounced => emailsBounced s
  | RepliesWillingToMeet => repliesWillingToMeet s
  | RepliesInterested => repliesInterested s
  | RepliesNotInterested => repliesNotInterested s
  | RepliesOutOfOffice => repliesOutOfOffice s
  | RepliesUnsubscribe => repliesUnsubscribe s
  end.

(** The payload property a field is read from. *)
Definition stat_key (f : StatField) : string :=
  match f with
  | LeadsFound => "leadsFound"
  | EmailsGenerated => "emailsGenerated"
  | EmailsSent => "emailsSent"
  | EmailsOpened => "emailsOpened"
  | EmailsClicked => "emailsClicked"
  | EmailsReplied => "emailsReplied"
  | EmailsBounced => "emailsBounced"
  | RepliesWillingToMeet => "repliesWillingToMeet"
  | RepliesInterested => "repliesInterested"
  | RepliesNotInterested => "repliesNotInterested"
  | RepliesOutOfOffice => "repliesOutOfOffice"
  | RepliesUnsubscribe => "repliesUnsubscribe"
  end.

(** Which results of [collect_and_merge] a field is computed from. *)
Definition sourced_from (f : StatField) (p : Provider) : bool :=
  match f, p with
  | LeadsFound, Apollo => true
  | LeadsFound, _ => false
  | EmailsGenerated, EmailGen => true
  | EmailsGenerated, _ => false
  | _, (Postmark | Instantly) => true
  | _, _ => false
  end.

Definition all_zero (s : AggregatedStats) : Prop := ∀ f, stat f s = Num 0.

(** [fetchStats] as a function of the answer it gets. *)
Definition classify {T} (serviceName : string) (answer : FetchOutcome T)
  : ServiceResult T :=
  match answer with
  | Rejects e => Err serviceName (catch_message e)
  | Resolves r =>
      if ok r then
        match json r with
        | JsonRejects e => Err serviceName (catch_message e)
        | JsonNullBody => Err serviceName null_property_message
        | JsonBody (StatsValue v) => Ok v
        | JsonBody _ => Err serviceName "no stats in response"
        end
      else Err serviceName (http_message (status r))
  end.

(** The entry [push_error] adds for a result, if any. *)
Definition error_of {T} (result : ServiceResult T) : option StatsError :=
  match result with
  | Ok _ => None
  | Err s e => Some (mkStatsError s e)
  end.


(** * Scenarios of the unit tests *)

Definition okResponse {T} (stats : T) : FetchOutcome T :=
  Resolves (mkResponse true 200 (JsonBody (StatsValue stats))).

Definition errorResponse {T} (status : nat) : FetchOutcome T :=
  Resolves (mkResponse false status (JsonBody StatsAbsent)).

Definition emptyOk {T} : FetchOutcome T :=
  Resolves (mkResponse true 200 (JsonBody StatsAbsent)).

Definition nullStats {T} : FetchOutcome T :=
  Resolves (mkResponse true 200 (JsonBody StatsNull)).

Definition connError : Thrown :=
  ThrownError "fetch failed" (Some (mkCause (Some "ECONNREFUSED"))).

(** [mockFetch.mockResolvedValueOnce(..)...]: the n-th call gets the n-th
    queued answer. *)
Definition mockFetch {T} (queue : list (FetchOutcome T)) : World T :=
  λ n _, default (Rejects ThrownOther) (queue !! n).

Definition APOLLO_STATS : StatsObject :=
  list_to_map [("leadsFound", JNum 10); ("searchesCount", JNum 2);
               ("totalPeopleFromSearches", JNum 50)].

Definition EMAILGEN_STATS : StatsObject := {["emailsGenerated" := JNum 8]}.

Definition POSTMARK_STATS : StatsObject :=
  list_to_map [
    ("emailsSent", JNum 5); ("emailsOpened", JNum 3); ("emailsClicked", JNum 1);
    ("emailsReplied", JNum 1); ("emailsBounced", JNum 0);
    ("repliesWillingToMeet", JNum 1); ("repliesInterested", JNum 0);
    ("repliesNotInterested", JNum 0);
    ("repliesOutOfOffice", JNum 0); ("repliesUnsubscribe", JNum 0) ].

Definition INSTANTLY_STATS : StatsObject :=
  list_to_map [
    ("emailsSent", JNum 4); ("emailsOpened", JNum 2); ("emailsClicked", JNum 1);
    ("emailsReplied", JNum 0); ("emailsBounced", JNum 1);
    ("repliesWillingToMeet", JNum 0); ("repliesInterested", JNum 0);
    ("repliesNotInterested", JNum 0);
    ("repliesOutOfOffice", JNum 0); ("repliesUnsubscribe", JNum 0) ].

Definition all_respond : World StatsObject :=
  mockFetch [okResponse APOLLO_STATS; okResponse EMAILGEN_STATS;
             okResponse POSTMARK_STATS; okResponse INSTANTLY_STATS].

Definition postmark_fails : World StatsObject :=
  mockFetch [okResponse APOLLO_STATS; okResponse EMAILGEN_STATS;
             errorResponse 500; okResponse INSTANTLY_STATS].

Definition all_fail : World StatsObject :=
  mockFetch [errorResponse 503; errorResponse 503;
             errorResponse 503; errorResponse 503].


(** The value of field [f] when provider [p] adds nothing to it: zero for a
    field read from [p] alone; for a summed field, zero plus what the other
    sending provider's data gives. *)
Definition zero_contribution
    (results : ServiceResult StatsObject * ServiceResult StatsObject *
               ServiceResult StatsObject * ServiceResult StatsObject)
    (p : Provider) (f : StatField) : JsNumber :=
  match p with
  | Apollo | EmailGen => Num 0
  | Postmark =>
      js_add (Num 0)
        (to_number (data_or_empty (outcome_of results Instantly) !! stat_key f))
  | Instantly =>
      js_add
        (to_number (data_or_empty (outcome_of results Postmark) !! stat_key f))
        (Num 0)
  end.

(** A 200 response without usable [stats]: the property is absent or null. *)
Definition no_stats {T} (r : Response T) : Prop :=
  ok r = true ∧ (json r = JsonBody StatsAbsent ∨ json r = JsonBody StatsNull).

Definition by_model_request (process_env : gmap string string)
    (runIds : list string) : Request :=
  mkRequest (EMAILGENERATION_SERVICE_URL process_env +:+ "/stats/by-model")
    "POST" (by_model_headers process_env) runIds.

Definition missing_stats : World StatsObject :=
  mockFetch [okResponse APOLLO_STATS; emptyOk; nullStats; okResponse INSTANTLY_STATS].

Definition instantly_fails : World StatsObject :=
  mockFetch [okResponse APOLLO_STATS; okResponse EMAILGEN_STATS;
             okResponse POSTMARK_STATS; errorResponse 500].

Definition apollo_refused : World StatsObject :=
  mockFetch [Rejects connError; okResponse EMAILGEN_STATS;
             okResponse POSTMARK_STATS; okResponse INSTANTLY_STATS].

Definition modelData : list ModelStats :=
  [mkModelStats "gpt-4o" 5 ["run-1"]; mkModelStats "claude-sonnet" 3 ["run-2"]].

(** Postmark answers 200 with every counter but [emailsBounced]. *)
Definition postmark_omits_bounced : World StatsObject :=
  mockFetch [okResponse APOLLO_STATS; okResponse EMAILGEN_STATS;
             okResponse (delete "emailsBounced" POSTMARK_STATS);
             okResponse INSTANTLY_STATS].

(** ** The reference merge

    The merge rules in the words of the specification (section 4.3), over
    what each upstream reported: a failure, or a value for each of its
    counters.  A counter read from one upstream is that upstream's value on
    success, else zero; a counter of the two sending providers is the sum of
    whichever succeeded, a failed provider counting for zero. *)
Inductive Report : Type :=
| Failed
| Reported (value : string → Z).

Definition contribution (r : Report) (key : string) : Z :=
  match r with
  | Failed => 0%Z
  | Reported value => value key
  end.

Definition reference_merge (apollo emailgen postmark instantly : Report)
  : AggregatedStats :=
  let single (r : Report) key := Num (contribution r key) in
  let summed key := Num (contribution postmark key + contribution instantly key)%Z in
  {| leadsFound := single apollo "leadsFound";
     emailsGenerated := single emailgen "emailsGenerated";
     emailsSent := summed "emailsSent";
     emailsOpened := summed "emailsOpened";
     emailsClicked := summed "emailsClicked";
     emailsReplied := summed "emailsReplied";
     emailsBounced := summed "emailsBounced";
     repliesWillingToMeet := summed "repliesWillingToMeet";
     repliesInterested := summed "repliesInterested";
     repliesNotInterested := summed "repliesNotInterested";
     repliesOutOfOffice := summed "repliesOutOfOffice";
     repliesUnsubscribe := summed "repliesUnsubscribe" |}.

(** The counters an upstream is expected to report. *)
Definition expected_keys (p : Provider) : list string :=
  match p with
  | Apollo => ["leadsFound"]
  | EmailGen => ["emailsGenerated"]
  | Postmark | Instantly =>
      ["emailsSent"; "emailsOpened"; "emailsClicked"; "emailsReplied";
       "emailsBounced"; "repliesWillingToMeet"; "repliesInterested";
       "repliesNotInterested"; "repliesOutOfOffice"; "repliesUnsubscribe"]
  end.

(** An outcome of the code carries the report [r]: it failed, or it
    succeeded with a payload holding the reported number under each expected
    counter. *)
Definition carries (p : Provider) (outcome : ServiceResult StatsObject)
    (r : Report) : Prop :=
  match outcome, r with
  | Err _ _, Failed => True
  | Ok data, Reported value =>
      Forall (λ key, data !! key = Some (JNum (value key))) (expected_keys p)
  | _, _ => False
  end.

(** The report a payload of the unit tests amounts to. *)
Definition report_of (data : StatsObject) : Report :=
  Reported (λ key, match data !! key with Some (JNum z) => z | _ => 0%Z end).

(** ** Vocabulary for the grouping of leads *)

(** The leads of a company, in input order. *)
Definition leads_named (n : string) (leads : list LeadData.t) : list LeadData.t :=
  filter (λ lead, LeadData.organizationName lead = Some n) leads.

(** The object [companyMap] holds under [n] once [leads] have been
    processed, in terms of the leads alone. *)
Definition entry_for (leads : list LeadData.t) (n : string)
  : option CompanyEntry.t :=
  if decide (n = "") then None
  else
    match head (leads_named n leads) with
    | None => None
    | Some first =>
        Some {| CompanyEntry.name := n;
                CompanyEntry.domain := or_null (LeadData.organizationDomain first);
                CompanyEntry.industry := or_null (LeadData.organizationIndustry first);
                CompanyEntry.employeeCount := or_null (LeadData.organizationSize first);
                CompanyEntry.leadsCount := length (leads_named n leads);
                CompanyEntry.enrichmentRunIds :=
                  omap (λ lead, or_null (LeadData.enrichmentRunId lead))
                       (leads_named n leads) |}
    end.

(** What the loop of [aggregateCompaniesFromLeads] maintains. *)
Definition grouped (leads : list LeadData.t) (m : JsMap CompanyEntry.t) : Prop :=
  (∀ n, bindings m !! n = entry_for leads n)
  ∧ NoDup (key_order m)
  ∧ (∀ n, n ∈ key_order m ↔ is_Some (bindings m !! n)).

(** A lead of Acme whose domain and run identifier are empty strings. *)
Definition lead_with_empty_strings : LeadData.t :=
  {| LeadData.id := "lead-1";
     LeadData.firstName := None; LeadData.lastName := None;
     LeadData.email := None; LeadData.title := None;
     LeadData.organizationName := Some "Acme";
     LeadData.organizationDomain := Some "";
     LeadData.organizationIndustry := None;
     LeadData.organizationSize := None;
     LeadData.linkedinUrl := None;
     LeadData.enrichmentRunId := Some "";
     LeadData.createdAt := "2024-01-01T00:00:00Z" |}.

Definition lead_of (id : string) (org : option string) (domain run : option string)
  : LeadData.t :=
  {| LeadData.id := id;
     LeadData.firstName := None; LeadData.lastName := None;
     LeadData.email := None; LeadData.title := None;
     LeadData.organizationName := org;
     LeadData.organizationDomain := domain;
     LeadData.organizationIndustry := None;
     LeadData.organizationSize := None;
     LeadData.linkedinUrl := None;
     LeadData.enrichmentRunId := run;
     LeadData.createdAt := "2024-01-01T00:00:00Z" |}.

Definition sample_leads : list LeadData.t :=
  [ lead_of "l1" (Some "Acme") (Some "acme.com") (Some "run-1");
    lead_of "l2" None None (Some "run-1");
    lead_of "l3" (Some "Globex") None None;
    lead_of "l4" (Some "Acme") (Some "acme.io") (Some "run-2");
    lead_of "l5" (Some "") (Some "nowhere") (Some "run-2") ].

(** * Loading leads from apollo-service *)

(** ** JSON values

    The body of an answer is whatever JSON apollo-service sent: the type
    [{ enrichments: LeadData[] }] that [getLeadsForRuns] gives to
    [fetchData] is an unchecked assertion ([as T]).  The loader is
    therefore modelled over arbitrary parsed JSON.  A number is the double
    that [JSON.parse] produced; the properties of an object are listed in
    the order of the text, a later duplicate overriding an earlier one. *)
#[warnings="-register-all"] Inductive Json : Type :=
| JsonNull
| JsonBool (b : bool)
| JsonNumber (n : PrimFloat.float)
| JsonString (s : string)
| JsonArray (items : list Json)
| JsonObject (properties : list (string * Json)).

(** [o[key]] for an object that [JSON.parse] built; [None] stands for
    [undefined]. *)
Definition own_property (key : string) (properties : list (string * Json))
  : option Json :=
  snd <$> last (filter (λ property, property.1 = key) properties).

(** [result?.enrichments]: [undefined] for [null]; an array, a string, a
    number or a boolean has no property of this name. *)
Definition enrichments_of (result : Json) : option Json :=
  match result with
  | JsonObject properties => own_property "enrichments" properties
  | JsonNull | JsonBool _ | JsonNumber _ | JsonString _ | JsonArray _ => None
  end.

(** The truth value of a condition [if (v)]. *)
Definition truthy_json (v : option Json) : bool :=
  match v with
  | None | Some JsonNull => false
  | Some (JsonBool b) => b
  | Some (JsonNumber n) => negb (PrimFloat.is_zero n || PrimFloat.is_nan n)
  | Some (JsonString s) => negb (String.eqb s "")
  | Some (JsonArray _) | Some (JsonObject _) => true
  end.

(** The strings a string iterates over, one per character. *)
Definition characters (s : string) : list Json :=
  (λ c, JsonString (String c EmptyString)) <$> String.list_ascii_of_string s.

(** The messages of the errors of a spread call (V8 wording). *)
Definition not_iterable_message : string :=
  "Spread syntax requires ...iterable[Symbol.iterator] to be a function".

Definition call_stack_message : string := "Maximum call stack size exceeded".

(** The values that a spread [...v] iterates over: the elements of an
    array, the characters of a string.  Nothing else that JSON can hold is
    iterable, and the spread throws a [TypeError]. *)
Definition iterate (v : Json) : Thrown + list Json :=
  match v with
  | JsonArray items => inr items
  | JsonString s => inr (characters s)
  | JsonNull | JsonBool _ | JsonNumber _ | JsonObject _ =>
      inl (ThrownError not_iterable_message None)
  end.

(** ** Requests and answers *)

(** The argument of the [fetch] call of [fetchData]: [fetch(url, { headers })],
    a GET without a body. *)
Record DataRequest : Type := mkDataRequest {
  data_url : string;
  data_headers : gmap string string;
}.

(** A response as [fetchData] reads it; [data_json] is what
    [await response.json()] gives: a rejection or the parsed body. *)
Record DataResponse : Type := mkDataResponse {
  data_ok : bool;
  data_status : nat;
  data_json : Thrown + Json;
}.

Inductive DataOutcome : Type :=
| DataResolves (r : DataResponse)
| DataRejects (e : Thrown).

(** The answer to a GET, given how many were issued before it. *)
Definition DataWorld : Type := nat → DataRequest → DataOutcome.

(** Computations that issue GET requests. *)
Definition Loading (A : Type) : Type := list DataRequest → A * list DataRequest.

#[global] Instance Loading_ret : MRet Loading := λ A a log, (a, log).

#[global] Instance Loading_bind : MBind Loading :=
  λ A B k m log, let '(a, log') := m log in k a log'.

Definition fetch_data (world : DataWorld) (req : DataRequest) : Loading DataOutcome :=
  λ log, (world (length log) req, (log ++ [req])%list).

(** The [try] block of [fetchData]: the parsed body, or [null]. *)
Definition fetchData_try (world : DataWorld) (url clerkOrgId : string)
    (apiKey : option string) : Loading (Thrown + Json) :=
  let headers := stats_headers clerkOrgId apiKey in
  response ← fetch_data world (mkDataRequest url headers);
  match response with
  | DataRejects e => mret (inl e)
  | DataResolves response =>
      if negb (data_ok response) then mret (inr JsonNull)
      else
        match data_json response with
        | inl e => mret (inl e)
        | inr body => mret (inr body)
        end
  end.

Definition fetchData (world : DataWorld) (url clerkOrgId : string)
    (apiKey : option string) : Loading Json :=
  attempt ← fetchData_try world url clerkOrgId apiKey;
  match attempt with
  | inr result => mret result
  | inl _ => mret JsonNull
  end.

Section Leads.
Variable process_env : gmap string string.

(** The number of arguments the engine accepts in one call.  The language
    sets no bound; an engine throws a [RangeError] when a spread passes
    more arguments than its stack holds. *)
Variable argument_limit : nat.

(** [if (result?.enrichments) { allLeads.push(...result.enrichments); }];
    the statement is outside every [try]. *)
Definition push_enrichments (result : Json) (allLeads : list Json)
  : Thrown + list Json :=
  let enrichments := enrichments_of result in
  if truthy_json enrichments then
    match enrichments with
    | Some v =>
        match iterate v with
        | inl e => inl e
        | inr items =>
            if bool_decide (length items ≤ argument_limit)%nat
            then inr (allLeads ++ items)%list
            else inl (ThrownError call_stack_message None)
        end
    | None => inr allLeads
    end
  else inr allLeads.

(** The [for (const runId of runIds)] loop of [getLeadsForRuns]; [inl] is
    the error with which the returned promise rejects. *)
Fixpoint getLeadsForRuns_loop (world : DataWorld) (runIds : list string)
    (clerkOrgId : string) (allLeads : list Json)
  : Loading (Thrown + list Json) :=
  match runIds with
  | [] => mret (inr allLeads)
  | runId :: runIds =>
      result ← fetchData world
        (APOLLO_SERVICE_URL process_env +:+ "/enrichments/" +:+ runId)
        clerkOrgId (APOLLO_SERVICE_API_KEY process_env);
      match push_enrichments result allLeads with
      | inl e => mret (inl e)
      | inr allLeads => getLeadsForRuns_loop world runIds clerkOrgId allLeads
      end
  end.

Definition getLeadsForRuns (world : DataWorld) (runIds : list string)
    (clerkOrgId : string) : Loading (Thrown + list Json) :=
  if bool_decide (length runIds = 0) then mret (inr [])
  else getLeadsForRuns_loop world runIds clerkOrgId [].
End Leads.

(** ** Vocabulary for the statements about leads *)

(** The request [getLeadsForRuns] sends for a run. *)
Definition enrichments_request (process_env : gmap string string)
    (clerkOrgId runId : string) : DataRequest :=
  mkDataRequest (APOLLO_SERVICE_URL process_env +:+ "/enrichments/" +:+ runId)
    (stats_headers clerkOrgId (APOLLO_SERVICE_API_KEY process_env)).

(** What [fetchData] returns for an answer. *)
Definition result_of_answer (answer : DataOutcome) : Json :=
  match answer with
  | DataResolves r =>
      if data_ok r then
        match data_json r with
        | inr body => body
        | inl _ => JsonNull
        end
      else JsonNull
  | DataRejects _ => JsonNull
  end.

(** What an answer makes one turn of the loop do: append items to
    [allLeads], or raise. *)
Definition contribution_of (argument_limit : nat) (answer : DataOutcome)
  : Thrown + list Json :=
  push_enrichments argument_limit (result_of_answer answer) [].

(** The outcome of the turns taken in order: the items appended until a
    turn raises. *)
Fixpoint gather (allLeads : list Json) (turns : list (Thrown + list Json))
  : Thrown + list Json :=
  match turns with
  | [] => inr allLeads
  | inl e :: _ => inl e
  | inr items :: turns => gather (allLeads ++ items)%list turns
  end.

(** The number of turns taken: all of them, or those up to the first that
    raises. *)
Fixpoint attempted (turns : list (Thrown + list Json)) : nat :=
  match turns with
  | [] => 0
  | inl _ :: _ => 1
  | inr _ :: turns => S (attempted turns)
  end.

(** The answers to the requests for [runIds], the first of which is request
    number [n]. *)
Fixpoint answers_from (process_env : gmap string string) (world : DataWorld)
    (clerkOrgId : string) (n : nat) (runIds : list string) : list DataOutcome :=
  match runIds with
  | [] => []
  | runId :: runIds =>
      world n (enrichments_request process_env clerkOrgId runId)
      :: answers_from process_env world clerkOrgId (S n) runIds
  end.

(** An answer that adds nothing to [allLeads]: a rejected [fetch], an error
    status, a body that does not parse, or a body whose [enrichments] is
    missing or falsy. *)
Definition no_leads (answer : DataOutcome) : Prop :=
  match answer with
  | DataRejects _ => True
  | DataResolves r =>
      data_ok r = false
      ∨ (∃ e, data_json r = inl e)
      ∨ (∃ body, data_json r = inr body ∧ truthy_json (enrichments_of body) = false)
  end.

(** A truthy value that a spread does not iterate: [true], a number other
    than zero, an object. *)
Definition not_iterable (v : Json) : Prop :=
  truthy_json (Some v) = true ∧ ∃ e, iterate v = inl e.

(** Scenarios for the lead loader. *)
Definition json_lead (id organizationName runId : string) : Json :=
  JsonObject [("id", JsonString id);
              ("organizationName", JsonString organizationName);
              ("enrichmentRunId", JsonString runId)].

Definition acme_json : Json := json_lead "l1" "Acme" "run-1".

Definition globex_json : Json := json_lead "l3" "Globex" "run-3".

Definition lead_acme : LeadData.t :=
  lead_of "l1" (Some "Acme") (Some "acme.com") (Some "run-1").

Definition lead_globex : LeadData.t :=
  lead_of "l3" (Some "Globex") None (Some "run-3").

Definition okData (enrichments : Json) : DataOutcome :=
  DataResolves (mkDataResponse true 200
    (inr (JsonObject [("enrichments", enrichments)]))).

Definition errorData (status : nat) : DataOutcome :=
  DataResolves (mkDataResponse false status (inr (JsonObject []))).

Definition mockData (queue : list DataOutcome) : DataWorld :=
  λ n _, default (DataRejects ThrownOther) (queue !! n).

(** Three runs: the second one is answered with HTTP 500. *)
Definition second_run_fails : DataWorld :=
  mockData [okData (JsonArray [acme_json]); errorData 500;
            okData (JsonArray [globex_json])].

(** Three runs: the second one is answered with [{ enrichments: {} }]. *)
Definition second_run_object : DataWorld :=
  mockData [okData (JsonArray [acme_json]); okData (JsonObject []);
            okData (JsonArray [globex_json])].

(** One run, answered with [{ enrichments: "ab" }]. *)
Definition string_enrichments : DataWorld := mockData [okData (JsonString "ab")].

(** * More scenarios *)

(** The unit-test answers with postmark's and instantly's swapped. *)
Definition all_respond_swapped : World StatsObject :=
  mockFetch [okResponse APOLLO_STATS; okResponse EMAILGEN_STATS;
             okResponse INSTANTLY_STATS; okResponse POSTMARK_STATS].

(** Apollo answers with [leadsFound] alone. *)
Definition apollo_minimal : World StatsObject :=
  mockFetch [okResponse {["leadsFound" := JNum 10]}; okResponse EMAILGEN_STATS;
             okResponse POSTMARK_STATS; okResponse INSTANTLY_STATS].

(** Postmark answers 200 with every counter at zero. *)
Definition postmark_zeros : World StatsObject :=
  mockFetch [okResponse APOLLO_STATS; okResponse EMAILGEN_STATS;
             okResponse EMPTY_SENDING_STATS; okResponse INSTANTLY_STATS].

(** Emailgen answers [{ emailsGenerated: null }], respectively
    [{ emailsGenerated: 0 }]. *)
Definition emailgen_null : World StatsObject :=
  mockFetch [okResponse APOLLO_STATS; okResponse {["emailsGenerated" := JNull]};
             okResponse POSTMARK_STATS; okResponse INSTANTLY_STATS].

Definition emailgen_zero : World StatsObject :=
  mockFetch [okResponse APOLLO_STATS; okResponse {["emailsGenerated" := JNum 0]};
             okResponse POSTMARK_STATS; okResponse INSTANTLY_STATS].

(** A JSON [null] read as the number it converts to. *)
Definition null_as_zero (v : option JsonCounter) : option JsonCounter :=
  match v with
  | Some JNull => Some (JNum 0)
  | _ => v
  end.

#[global] Instance JsonCounter_eq_dec : EqDecision JsonCounter.
Proof. solve_decision. Defined.

(** * Middleware and run summaries *)

(** What an Express middleware does with a request: answer it, or hand it
    to the next handler. *)
Inductive MiddlewareResult : Type :=
| Respond (status : nat) (error : string)
| CallNext.

(** [requireApiKey]: [x_api_key] is [req.headers["x-api-key"]], read
    against [process.env.CAMPAIGN_SERVICE_API_KEY]. *)
Definition requireApiKey (process_env : gmap string string)
    (x_api_key : option string) : MiddlewareResult :=
  let apiKey := x_api_key in
  let expectedKey := process_env !! "CAMPAIGN_SERVICE_API_KEY" in
  if negb (truthy expectedKey) then Respond 500 "API key not configured"
  else if negb (truthy apiKey) || negb (bool_decide (apiKey = expectedKey))
  then Respond 401 "Invalid or missing API key"
  else CallNext.

(** A run of [@mcpfactory/runs-client], with the fields the stats routes
    read. *)
Record Run : Type := mkRun {
  run_id : string;
  run_status : string;
}.

(** The [runs] object of the campaign stats routes:
    [{ total: runs.length, completed: runs.filter(r => r.status === "completed").length, ... }]. *)
Record RunSummary : Type := mkRunSummary {
  total : nat;
  completed : nat;
  failed : nat;
  running : nat;
}.

Definition run_summary (runs : list Run) : RunSummary :=
  {| total := length runs;
     completed := length (filter (λ r, run_status r = "completed") runs);
     failed := length (filter (λ r, run_status r = "failed") runs);
     running := length (filter (λ r, run_status r = "running") runs) |}.

(** * Number ranges

    The merge adds JavaScript numbers, that is IEEE doubles.  [js_add]
    adds integers; it is what the code computes when both operands and
    their sum are integers a double holds exactly, the safe integers.  The
    statements whose truth depends on this carry it as a hypothesis. *)

(** [Number.MAX_SAFE_INTEGER], [2^53 - 1]. *)
Definition MAX_SAFE_INTEGER : Z := 9007199254740991.

Definition safe_integer (z : Z) : Prop :=
  (- MAX_SAFE_INTEGER ≤ z ≤ MAX_SAFE_INTEGER)%Z.

(** Every counter expected of the provider is reported as a safe integer. *)
Definition safe_report (p : Provider) (r : Report) : Prop :=
  Forall (λ key, safe_integer (contribution r key)) (expected_keys p).

(** The sums of the two sending providers' counters are safe integers. *)
Definition safe_sums (postmark instantly : Report) : Prop :=
  Forall (λ key, safe_integer (contribution postmark key + contribution instantly key))
         (expected_keys Postmark).

(** A property read that [+] treats as a number it holds exactly: absent
    ([undefined]), [null], or a safe integer; not a string, a boolean, an
    array, an object or a number out of range. *)
Definition numeric_counter (v : option JsonCounter) : Prop :=
  match v with
  | None | Some JNull => True
  | Some (JNum z) => safe_integer z
  end.

(** A payload whose ten sending counters are numeric in this sense. *)
Definition numeric_sending_counters (data : StatsObject) : Prop :=
  ∀ f, sourced_from f Postmark = true → numeric_counter (data !! stat_key f).

(** The same for the outcome of a sending provider: nothing is asked of a
    failed one. *)
Definition numeric_sending (outcome : ServiceResult StatsObject) : Prop :=
  match outcome with
  | Ok data => numeric_sending_counters data
  | Err _ _ => True
  end.
(** * Basic facts *)

Lemma fetchStats_run {T} (world : World T) url serviceName clerkOrgId body apiKey log :
  let req := mkRequest url "POST" (stats_headers clerkOrgId apiKey) body in
  fetchStats world url serviceName clerkOrgId body apiKey log
  = (classify serviceName (world (length log) req), (log ++ [req])%list).
Proof.
  unfold fetchStats, fetchStats_try, fetch, mbind, mret, Fetching_bind, Fetching_ret.
  cbn. destruct (world (length log) _) as [r|e]; cbn; [|done].
  destruct (ok r); cbn; [|done].
  destruct (json r) as [e| |[| |v]]; done.
Qed.

Lemma classify_service {T} serviceName (answer : FetchOutcome T) s e :
  classify serviceName answer = Err s e → s = serviceName.
Proof.
  unfold classify. destruct answer as [r|]; [|congruence].
  destruct (ok r); [|congruence].
  destruct (json r) as [| |[]]; congruence.
Qed.

Lemma dispatch_run process_env world body clerkOrgId log :
  dispatch process_env world body clerkOrgId log
  = ((classify "apollo" (upstream_answer process_env world body clerkOrgId log Apollo),
      classify "emailgen" (upstream_answer process_env world body clerkOrgId log EmailGen),
      classify "postmark" (upstream_answer process_env world body clerkOrgId log Postmark),
      classify "instantly" (upstream_answer process_env world body clerkOrgId log Instantly)),
     (log ++ map (λ p, upstream_request process_env p body clerkOrgId) providers)%list).
Proof.
  unfold dispatch, mbind, Fetching_bind, mret, Fetching_ret.
  rewrite !fetchStats_run. unfold upstream_answer. cbn [provider_index].
  rewrite !length_app. cbn [length map providers upstream_request].
  rewrite <- !app_assoc, <- !Nat.add_assoc, Nat.add_0_r. reflexivity.
Qed.

Lemma getAggregatedStats_empty process_env world clerkOrgId log :
  getAggregatedStats process_env world [] clerkOrgId log
  = ({| stats := emptyStats; errors := [] |}, log).
Proof. reflexivity. Qed.

Lemma getAggregatedStats_nonempty process_env world runIds clerkOrgId log :
  runIds ≠ [] →
  getAggregatedStats process_env world runIds clerkOrgId log
  = (let '(a, e, p, i) := fst (dispatch process_env world runIds clerkOrgId log) in
     collect_and_merge a e p i,
     snd (dispatch process_env world runIds clerkOrgId log)).
Proof.
  intros Hne. unfold getAggregatedStats.
  rewrite bool_decide_eq_false_2 by (destruct runIds; [done | cbn; lia]).
  unfold mbind, Fetching_bind, mret, Fetching_ret.
  destruct (dispatch _ _ _ _ _) as [[[[a e] p] i] log']. reflexivity.
Qed.

Lemma outcome_of_dispatch process_env world body clerkOrgId log p :
  outcome_of (fst (dispatch process_env world body clerkOrgId log)) p
  = classify (provider_name p)
      (upstream_answer process_env world body clerkOrgId log p).
Proof. rewrite dispatch_run. by destruct p. Qed.

(** A failed call is reported under the name its call site passes. *)
Lemma outcome_of_service process_env world body clerkOrgId log p s e :
  outcome_of (fst (dispatch process_env world body clerkOrgId log)) p = Err s e →
  s = provider_name p.
Proof. rewrite outcome_of_dispatch. apply classify_service. Qed.

Lemma push_error_app {T} (result : ServiceResult T) errs :
  push_error result errs = (errs ++ option_list (error_of result))%list.
Proof. destruct result; cbn; by rewrite ?app_nil_r. Qed.

Lemma errors_collect_and_merge a e p i :
  errors (collect_and_merge a e p i) = omap error_of [a; e; p; i].
Proof.
  unfold collect_and_merge; cbn [errors]. rewrite !push_error_app.
  destruct a, e, p, i; reflexivity.
Qed.

Lemma stat_collect_and_merge f a e p i :
  stat f (stats (collect_and_merge a e p i))
  = match f with
    | LeadsFound => field_or_zero a "leadsFound"
    | EmailsGenerated => field_or_zero e "emailsGenerated"
    | _ => js_plus (data_or_empty p !! stat_key f) (data_or_empty i !! stat_key f)
    end.
Proof. by destruct f. Qed.

Lemma EMPTY_SENDING_STATS_lookup f :
  sourced_from f Postmark = true →
  EMPTY_SENDING_STATS !! stat_key f = Some (JNum 0).
Proof. destruct f; cbn; intros; first [discriminate | by vm_compute]. Qed.

Lemma js_add_0_l n : js_add (Num 0) n = n.
Proof. by destruct n. Qed.

Lemma js_add_0_r n : js_add n (Num 0) = n.
Proof. destruct n; cbn; [by rewrite Z.add_0_r | done]. Qed.

(** The result of a call with run identifiers, in terms of the four
    outcomes. *)
Lemma getAggregatedStats_results process_env world runIds clerkOrgId log :
  runIds ≠ [] →
  let results := fst (dispatch process_env world runIds clerkOrgId log) in
  fst (getAggregatedStats process_env world runIds clerkOrgId log)
  = collect_and_merge (outcome_of results Apollo) (outcome_of results EmailGen)
      (outcome_of results Postmark) (outcome_of results Instantly).
Proof.
  intros Hne. rewrite getAggregatedStats_nonempty by done.
  by destruct (dispatch _ _ _ _ _) as [[[[a e] p] i] log'].
Qed.

Lemma getAggregatedStats_log process_env world runIds clerkOrgId log :
  runIds ≠ [] →
  snd (getAggregatedStats process_env world runIds clerkOrgId log)
  = (log ++ map (λ p, upstream_request process_env p runIds clerkOrgId) providers)%list.
Proof.
  intros Hne. rewrite getAggregatedStats_nonempty by done.
  by rewrite dispatch_run.
Qed.

(** * The unit tests, replayed *)

Example test_all_respond :
  let result := fst (getAggregatedStats ∅ all_respond ["run-1"] "org-1" []) in
  errors result = [] ∧ leadsFound (stats result) = Num 10 ∧
  emailsGenerated (stats result) = Num 8 ∧ emailsSent (stats result) = Num 9 ∧
  emailsOpened (stats result) = Num 5 ∧ emailsBounced (stats result) = Num 1.
Proof. by vm_compute. Qed.

Example test_empty_runIds :
  getAggregatedStats ∅ all_respond [] "org-1" []
  = ({| stats := emptyStats; errors := [] |}, []).
Proof. reflexivity. Qed.

Example test_all_fail :
  let result := fst (getAggregatedStats ∅ all_fail ["run-1"] "org-1" []) in
  service <$> errors result = ["apollo"; "emailgen"; "postmark"; "instantly"] ∧
  leadsFound (stats result) = Num 0 ∧ emailsSent (stats result) = Num 0.
Proof. by vm_compute. Qed.

Example test_connection_refused :
  let result := fst (getAggregatedStats ∅ apollo_refused ["run-1"] "org-1" []) in
  errors result = [mkStatsError "apollo" "connection refused"] ∧
  leadsFound (stats result) = Num 0 ∧ emailsSent (stats result) = Num 9.
Proof. by vm_compute. Qed.

Example test_missing_stats :
  let result := fst (getAggregatedStats ∅ missing_stats ["run-1"] "org-1" []) in
  service <$> errors result = ["emailgen"; "postmark"] ∧
  leadsFound (stats result) = Num 10 ∧ emailsSent (stats result) = Num 4.
Proof. by vm_compute. Qed.

Example test_instantly_fails :
  let result := fst (getAggregatedStats ∅ instantly_fails ["run-1"] "org-1" []) in
  service <$> errors result = ["instantly"] ∧ emailsSent (stats result) = Num 5.
Proof. by vm_compute. Qed.

Example test_requests_sent :
  url <$> snd (getAggregatedStats ∅ all_respond ["run-1"] "org-1" [])
  = ["http://localhost:3003/stats"; "http://localhost:3004/stats";
     "http://localhost:3006/stats"; "http://localhost:3007/stats"].
Proof. by vm_compute. Qed.

Example test_by_model_success :
  fst (getStatsByModel ∅ (mockFetch [okResponse modelData]) ["run-1"; "run-2"] [])
  = ByModel.mk modelData [].
Proof. by vm_compute. Qed.

Example test_by_model_failure :
  fst (getStatsByModel ∅ (mockFetch [errorResponse 500]) ["run-1"] [])
  = ByModel.mk [] [mkStatsError "emailgen" "HTTP 500"].
Proof. by vm_compute. Qed.

Example test_postmark_fails :
  let result := fst (getAggregatedStats ∅ postmark_fails ["run-1"] "org-1" []) in
  errors result = [mkStatsError "postmark" "HTTP 500"] ∧
  leadsFound (stats result) = Num 10 ∧ emailsSent (stats result) = Num 4.
Proof. by vm_compute. Qed.

(** * The aggregation result *)

(** C2: with the empty list of run identifiers, [getAggregatedStats] returns
    stats whose every field is zero and an empty error list, and it performs
    no [fetch]: the request log is left as it was. *)
Theorem C2_empty_runIds_short_circuit process_env world clerkOrgId log :
  let run := getAggregatedStats process_env world [] clerkOrgId log in
  all_zero (stats (fst run)) ∧ errors (fst run) = [] ∧ snd run = log.
Proof.
  rewrite getAggregatedStats_empty. cbn.
  split; [by intros [] | done].
Qed.

(** No error is reported exactly when no dispatched call failed. *)
Lemma errors_empty_iff process_env world runIds clerkOrgId log :
  runIds ≠ [] →
  let results := fst (dispatch process_env world runIds clerkOrgId log) in
  errors (fst (getAggregatedStats process_env world runIds clerkOrgId log)) = []
  ↔ ∀ p, is_ok (outcome_of results p) = true.
Proof.
  intros Hne results.
  rewrite getAggregatedStats_results by done. fold results.
  rewrite errors_collect_and_merge. split.
  - intros Herr p.
    destruct (outcome_of results Apollo) eqn:Ea, (outcome_of results EmailGen) eqn:Ee,
      (outcome_of results Postmark) eqn:Ep, (outcome_of results Instantly) eqn:Ei;
      try discriminate Herr.
    destruct p; by rewrite ?Ea, ?Ee, ?Ep, ?Ei.
  - intros Hok.
    pose proof (Hok Apollo) as Ha. pose proof (Hok EmailGen) as He.
    pose proof (Hok Postmark) as Hp. pose proof (Hok Instantly) as Hi.
    destruct (outcome_of results Apollo), (outcome_of results EmailGen),
      (outcome_of results Postmark), (outcome_of results Instantly);
      try discriminate; done.
Qed.



(** The error list as a function of the four outcomes. *)
Lemma errors_shape process_env world runIds clerkOrgId log :
  runIds ≠ [] →
  let results := fst (dispatch process_env world runIds clerkOrgId log) in
  let result := fst (getAggregatedStats process_env world runIds clerkOrgId log) in
  errors result = omap (λ p, error_of (outcome_of results p)) providers
  ∧ service <$> errors result
    = provider_name <$> filter (λ p, is_ok (outcome_of results p) = false) providers.
Proof.
  intros Hne results result.
  assert (Herr : errors result
    = omap (λ p, error_of (outcome_of results p)) providers).
  { subst result. rewrite getAggregatedStats_results by done.
    by rewrite errors_collect_and_merge. }
  split; [done|]. rewrite Herr.
  pose proof (outcome_of_service process_env world runIds clerkOrgId log) as Hs.
  fold results in Hs. unfold providers.
  rewrite !filter_cons, filter_nil. cbn [omap list_omap].
  repeat match goal with
  | |- context [outcome_of results ?p] =>
      let E := fresh "E" in
      destruct (outcome_of results p) eqn:E;
      [| apply Hs in E as ->]
  end; cbn; repeat case_decide; done.
Qed.

(** C8: the error list holds exactly one entry per failed upstream, named
    after it, in the dispatch order apollo, emailgen, postmark, instantly;
    two calls with the same four outcomes report the same error sequence. *)
Theorem C8_errors_in_dispatch_order process_env world runIds clerkOrgId log :
  runIds ≠ [] →
  let results := fst (dispatch process_env world runIds clerkOrgId log) in
  let result := fst (getAggregatedStats process_env world runIds clerkOrgId log) in
  errors result = omap (λ p, error_of (outcome_of results p)) providers
  ∧ service <$> errors result
    = provider_name <$> filter (λ p, is_ok (outcome_of results p) = false) providers
  ∧ (∀ process_env' world' runIds' clerkOrgId' log',
       runIds' ≠ [] →
       fst (dispatch process_env' world' runIds' clerkOrgId' log') = results →
       errors (fst (getAggregatedStats process_env' world' runIds' clerkOrgId' log'))
       = errors result).
Proof.
  intros Hne results result.
  destruct (errors_shape process_env world runIds clerkOrgId log Hne) as [H1 H2].
  split; [done | split; [done|]].
  intros pe w r c l Hr Hres.
  destruct (errors_shape pe w r c l Hr) as [H1' _].
  cbn zeta in H1, H1'. subst result. rewrite H1, H1'. by rewrite Hres.
Qed.

Lemma C8_errors_in_dispatch_order_witness :
  errors (fst (getAggregatedStats ∅ postmark_fails ["run-1"] "org-1" []))
  = omap (λ p, error_of (outcome_of
             (fst (dispatch ∅ postmark_fails ["run-1"] "org-1" [])) p)) providers.
Proof.
  refine (proj1 (C8_errors_in_dispatch_order ∅ postmark_fails ["run-1"] "org-1" [] _)).
  done.
Defined.

(** * The upstream stat client *)

Lemma catch_message_refused m c :
  code c = Some "ECONNREFUSED" →
  catch_message (ThrownError m (Some c)) = "connection refused".
Proof. unfold catch_message. cbn. intros ->. done. Qed.

Lemma catch_message_other m c :
  c ≫= code ≠ Some "ECONNREFUSED" →
  catch_message (ThrownError m c) = m.
Proof. unfold catch_message. intros H. by rewrite bool_decide_eq_false_2. Qed.

(** A thrown value that is not an [Error] has no message to report. *)
Lemma catch_message_non_error : catch_message ThrownOther = "unknown error".
Proof. reflexivity. Qed.

(** C6: [fetchStats] never raises.  Whatever the [try] block throws is
    turned into a returned failure; exactly one request is issued; a
    non-success status gives the reason ["HTTP <status>"], a rejection whose
    cause has code [ECONNREFUSED] gives ["connection refused"], and any other
    rejection with an [Error] gives that error's message. *)
Theorem C6_fetchStats_never_raises {T} (world : World T)
    url serviceName clerkOrgId body apiKey log :
  let req := mkRequest url "POST" (stats_headers clerkOrgId apiKey) body in
  let run := fetchStats world url serviceName clerkOrgId body apiKey log in
  (∃ result, run = (result, (log ++ [req])%list))
  ∧ (∀ e log',
       fetchStats_try world url serviceName clerkOrgId body apiKey log = (inl e, log') →
       run = (Err serviceName (catch_message e), log'))
  ∧ (∀ r, world (length log) req = Resolves r → ok r = false →
       fst run = Err serviceName ("HTTP " +:+ pretty (status r)))
  ∧ (∀ m c, world (length log) req = Rejects (ThrownError m (Some c)) →
       code c = Some "ECONNREFUSED" →
       fst run = Err serviceName "connection refused")
  ∧ (∀ m c, world (length log) req = Rejects (ThrownError m c) →
       c ≫= code ≠ Some "ECONNREFUSED" →
       fst run = Err serviceName m).
Proof.
  intros req run. repeat split.
  - eexists. subst run. by rewrite fetchStats_run.
  - intros e log' Htry. subst run. unfold fetchStats, mbind, Fetching_bind.
    by rewrite Htry.
  - intros r Hw Hok. subst run. rewrite fetchStats_run. fold req. cbn.
    by rewrite Hw; cbn; rewrite Hok.
  - intros m c Hw Hc. subst run. rewrite fetchStats_run. fold req. cbn.
    rewrite Hw. cbn. by rewrite catch_message_refused.
  - intros m c Hw Hc. subst run. rewrite fetchStats_run. fold req. cbn.
    rewrite Hw. cbn. by rewrite catch_message_other.
Qed.

Lemma C6_fetchStats_never_raises_witness :
  fst (fetchStats (mockFetch [Rejects connError] : World StatsObject)
         "http://localhost:3003/stats" "apollo" "org-1" ["run-1"] None [])
  = Err "apollo" "connection refused".
Proof.
  refine (proj1 (proj2 (proj2 (proj2
    (C6_fetchStats_never_raises (mockFetch [Rejects connError])
       "http://localhost:3003/stats" "apollo" "org-1" ["run-1"] None []))))
    "fetch failed" (mkCause (Some "ECONNREFUSED")) _ _); reflexivity.
Defined.

Lemma getStatsByModel_run process_env world runIds log :
  runIds ≠ [] →
  getStatsByModel process_env world runIds log
  = (match world (length log) (by_model_request process_env runIds) with
     | Rejects e => ByModel.mk [] [mkStatsError "emailgen" (catch_message e)]
     | Resolves r =>
         if ok r then
           match json r with
           | JsonRejects e => ByModel.mk [] [mkStatsError "emailgen" (catch_message e)]
           | JsonNullBody => ByModel.mk [] [mkStatsError "emailgen" null_property_message]
           | JsonBody (StatsValue v) => ByModel.mk v []
           | JsonBody _ => ByModel.mk [] []
           end
         else ByModel.mk [] [mkStatsError "emailgen" (http_message (status r))]
     end, (log ++ [by_model_request process_env runIds])%list).
Proof.
  intros Hne. unfold getStatsByModel.
  rewrite bool_decide_eq_false_2 by (destruct runIds; [done | cbn; lia]).
  unfold getStatsByModel_try, fetch, mbind, mret, Fetching_bind, Fetching_ret.
  fold (by_model_request process_env runIds).
  destruct (world _ _) as [r|e]; cbn; [|done].
  destruct (ok r); cbn; [|done].
  destruct (json r) as [e| |[| |v]]; done.
Qed.

(** C9: [getStatsByModel] with no run identifiers performs no request and
    returns empty stats and empty errors; with run identifiers, a failed
    HTTP call (a non-success status, or a rejected [fetch]) gives empty
    stats and exactly one error, named ["emailgen"]. *)
Theorem C9_getStatsByModel process_env world runIds log :
  let run := getStatsByModel process_env world runIds log in
  let req := by_model_request process_env runIds in
  (runIds = [] → run = (ByModel.mk [] [], log))
  ∧ (runIds ≠ [] → ∀ r, world (length log) req = Resolves r → ok r = false →
       run = (ByModel.mk [] [mkStatsError "emailgen" (http_message (status r))],
              (log ++ [req])%list))
  ∧ (runIds ≠ [] → ∀ e, world (length log) req = Rejects e →
       run = (ByModel.mk [] [mkStatsError "emailgen" (catch_message e)],
              (log ++ [req])%list)).
Proof.
  intros run req. repeat split.
  - by intros ->.
  - intros Hne r Hw Hok. subst run req. rewrite getStatsByModel_run by done.
    by rewrite Hw, Hok.
  - intros Hne e Hw. subst run req. rewrite getStatsByModel_run by done.
    by rewrite Hw.
Qed.

Lemma C9_getStatsByModel_witness :
  getStatsByModel ∅ (mockFetch [errorResponse 500]) ["run-1"] []
  = (ByModel.mk [] [mkStatsError "emailgen" "HTTP 500"],
     [by_model_request ∅ ["run-1"]]).
Proof.
  refine (proj1 (proj2 (C9_getStatsByModel ∅ (mockFetch [errorResponse 500]) ["run-1"] []))
            _ (mkResponse false 500 (JsonBody StatsAbsent)) _ _); done.
Defined.

(** * Responses without stats *)

Lemma classify_no_stats {T} serviceName (r : Response T) :
  no_stats r →
  classify serviceName (Resolves r) = Err serviceName "no stats in response".
Proof. intros [Hok [Hj|Hj]]; cbn; by rewrite Hok, Hj. Qed.

(** The errors a failed provider leaves in the list: its own, once. *)
Lemma errors_of_provider process_env world runIds clerkOrgId log p s e :
  runIds ≠ [] →
  let results := fst (dispatch process_env world runIds clerkOrgId log) in
  let result := fst (getAggregatedStats process_env world runIds clerkOrgId log) in
  outcome_of results p = Err s e →
  filter (λ err, service err = provider_name p) (errors result)
  = [mkStatsError (provider_name p) e].
Proof.
  intros Hne results result Hp. subst result.
  rewrite getAggregatedStats_results by done. fold results.
  rewrite errors_collect_and_merge.
  pose proof (outcome_of_service process_env world runIds clerkOrgId log) as Hs.
  fold results in Hs.
  destruct (outcome_of results Apollo) as [|sa ea] eqn:Ea;
    [|pose proof (Hs _ _ _ Ea); subst sa];
  (destruct (outcome_of results EmailGen) as [|se ee] eqn:Ee;
    [|pose proof (Hs _ _ _ Ee); subst se]);
  (destruct (outcome_of results Postmark) as [|sp ep] eqn:Ep;
    [|pose proof (Hs _ _ _ Ep); subst sp]);
  (destruct (outcome_of results Instantly) as [|si ei] eqn:Ei;
    [|pose proof (Hs _ _ _ Ei); subst si]);
  destruct p; cbn; rewrite ?filter_cons, ?filter_nil; cbn;
  repeat case_decide; congruence.
Qed.

(** The fields a failed provider feeds get nothing from it. *)
Lemma failed_provider_contributes_zero process_env world runIds clerkOrgId log p f :
  runIds ≠ [] →
  let results := fst (dispatch process_env world runIds clerkOrgId log) in
  let result := fst (getAggregatedStats process_env world runIds clerkOrgId log) in
  is_ok (outcome_of results p) = false →
  sourced_from f p = true →
  stat f (stats result) = zero_contribution results p f.
Proof.
  intros Hne results result Hp Hf. subst result.
  rewrite getAggregatedStats_results by done. fold results.
  rewrite stat_collect_and_merge. unfold zero_contribution.
  destruct (outcome_of results p) eqn:E; [done|].
  destruct p; destruct f; try discriminate Hf; rewrite E; cbn [field_or_zero data_or_empty];
    try reflexivity; unfold js_plus;
    by rewrite EMPTY_SENDING_STATS_lookup.
Qed.

(** [fetchStats] classifies a 200 response whose [stats] is absent or null
    as a failure with reason ["no stats in response"]. *)
Lemma fetchStats_no_stats {T} (world : World T) url serviceName clerkOrgId body
    apiKey log r :
  world (length log) (mkRequest url "POST" (stats_headers clerkOrgId apiKey) body)
    = Resolves r →
  no_stats r →
  fst (fetchStats world url serviceName clerkOrgId body apiKey log)
  = Err serviceName "no stats in response".
Proof.
  intros Hw Hr. rewrite fetchStats_run. cbn [fst]. rewrite Hw.
  by apply classify_no_stats.
Qed.

(** In [getAggregatedStats] such a response leaves exactly one error under
    the provider's name and a zero contribution to the fields read from
    that provider. *)
Lemma getAggregatedStats_no_stats process_env world runIds clerkOrgId log p r :
  runIds ≠ [] →
  upstream_answer process_env world runIds clerkOrgId log p = Resolves r →
  no_stats r →
  let results := fst (dispatch process_env world runIds clerkOrgId log) in
  let result := fst (getAggregatedStats process_env world runIds clerkOrgId log) in
  outcome_of results p = Err (provider_name p) "no stats in response"
  ∧ filter (λ err, service err = provider_name p) (errors result)
    = [mkStatsError (provider_name p) "no stats in response"]
  ∧ ∀ f, sourced_from f p = true →
      stat f (stats result) = zero_contribution results p f.
Proof.
  intros Hne Hw Hr results result.
  assert (Hp : outcome_of results p = Err (provider_name p) "no stats in response").
  { subst results. rewrite outcome_of_dispatch, Hw. by apply classify_no_stats. }
  split; [done | split].
  - by eapply errors_of_provider.
  - intros f Hf. apply failed_provider_contributes_zero; [done | | done].
    fold results. by rewrite Hp.
Qed.

Example test_missing_stats_postmark :
  filter (λ err, service err = "postmark")
    (errors (fst (getAggregatedStats ∅ missing_stats ["run-1"] "org-1" [])))
  = [mkStatsError "postmark" "no stats in response"].
Proof.
  refine (proj1 (proj2 (getAggregatedStats_no_stats
    ∅ missing_stats ["run-1"] "org-1" [] Postmark
    (mkResponse true 200 (JsonBody StatsNull)) _ _ _))).
  - done.
  - reflexivity.
  - split; [reflexivity | by right].
Qed.

(** [getStatsByModel] does not go through [fetchStats] and has no such
    check.  For a 200 response whose [stats] is absent or null,
    [data.stats || []] makes it return empty stats and no error, whatever
    the run ids. *)
Lemma getStatsByModel_no_stats process_env world runIds log r :
  runIds ≠ [] →
  world (length log) (by_model_request process_env runIds) = Resolves r →
  no_stats r →
  fst (getStatsByModel process_env world runIds log) = ByModel.mk [] [].
Proof.
  intros Hne Hw [Hok Hj].
  rewrite getStatsByModel_run by done. cbn [fst]. rewrite Hw, Hok.
  by destruct Hj as [-> | ->].
Qed.

(** C5, at the failing input: the by-model endpoint answers 200 with a body
    that has no [stats] property.  [fetchStats], given this very answer,
    returns the failure ["no stats in response"], which is what the claim
    requires of every upstream request; [getStatsByModel] returns empty
    stats and an empty error list, a silent empty success.  The same
    happens when [stats] is [null]. *)
Theorem C5_by_model_silent_success :
  let request := by_model_request ∅ ["run-1"] in
  let absent : World (list ModelStats) := mockFetch [emptyOk] in
  let null : World (list ModelStats) := mockFetch [nullStats] in
  absent 0 request = Resolves (mkResponse true 200 (JsonBody StatsAbsent))
  ∧ null 0 request = Resolves (mkResponse true 200 (JsonBody StatsNull))
  ∧ fst (fetchStats absent (url request) "emailgen" "" (body_runIds request) None [])
    = Err "emailgen" "no stats in response"
  ∧ fst (getStatsByModel ∅ absent ["run-1"] []) = ByModel.mk [] []
  ∧ fst (getStatsByModel ∅ null ["run-1"] []) = ByModel.mk [] []
  ∧ ByModel.errors (fst (getStatsByModel ∅ absent ["run-1"] []))
    ≠ [mkStatsError "emailgen" "no stats in response"]
  ∧ ByModel.errors (fst (getStatsByModel ∅ null ["run-1"] []))
    ≠ [mkStatsError "emailgen" "no stats in response"].
Proof. by vm_compute. Qed.

(** * One failed upstream *)

(** C7: when exactly one upstream fails, the error list has one entry and
    it names that provider; the fields it feeds get a zero contribution from
    it; every other field has the value it has in any call where all four
    succeed and the other three outcomes are the same. *)
Theorem C7_single_failure process_env world runIds clerkOrgId log p :
  runIds ≠ [] →
  let results := fst (dispatch process_env world runIds clerkOrgId log) in
  let result := fst (getAggregatedStats process_env world runIds clerkOrgId log) in
  (∀ q, is_ok (outcome_of results q) = false ↔ q = p) →
  (length (errors result) = 1 ∧ service <$> errors result = [provider_name p])
  ∧ (∀ f, sourced_from f p = true →
       stat f (stats result) = zero_contribution results p f)
  ∧ (∀ process_env' world' runIds' clerkOrgId' log',
       runIds' ≠ [] →
       let results' := fst (dispatch process_env' world' runIds' clerkOrgId' log') in
       let result' :=
         fst (getAggregatedStats process_env' world' runIds' clerkOrgId' log') in
       (∀ q, is_ok (outcome_of results' q) = true) →
       (∀ q, q ≠ p → outcome_of results' q = outcome_of results q) →
       ∀ f, sourced_from f p = false →
         stat f (stats result) = stat f (stats result')).
Proof.
  intros Hne results result Hone.
  assert (Hp : is_ok (outcome_of results p) = false) by by apply Hone.
  assert (Hq : ∀ q, q ≠ p → is_ok (outcome_of results q) = true).
  { intros q Hqp. destruct (is_ok (outcome_of results q)) eqn:E; [done|].
    by apply Hone in E. }
  split; [|split].
  - destruct (errors_shape process_env world runIds clerkOrgId log Hne) as [_ Hnames].
    fold results result in Hnames.
    assert (Hfilter : filter (λ q, is_ok (outcome_of results q) = false) providers = [p]).
    { unfold providers. rewrite !filter_cons, filter_nil.
      destruct p; repeat case_decide;
        repeat match goal with
        | H : is_ok _ = false |- _ => apply Hone in H
        | H : ¬ (is_ok _ = false) |- _ => rewrite Hone in H
        end; congruence. }
    rewrite Hfilter in Hnames. split; [|done].
    apply (f_equal length) in Hnames. by rewrite length_fmap in Hnames.
  - intros f Hf. by apply failed_provider_contributes_zero.
  - intros pe' w' r' c' l' Hne' results' result' Hok' Hsame f Hf.
    subst result result'. rewrite !getAggregatedStats_results by done.
    fold results results'. rewrite !stat_collect_and_merge.
    destruct p, f; try discriminate Hf;
      rewrite ?(Hsame Apollo), ?(Hsame EmailGen), ?(Hsame Postmark),
        ?(Hsame Instantly) by done; reflexivity.
Qed.

Lemma C7_single_failure_witness :
  let result := fst (getAggregatedStats ∅ postmark_fails ["run-1"] "org-1" []) in
  length (errors result) = 1 ∧ service <$> errors result = ["postmark"].
Proof.
  refine (proj1 (C7_single_failure ∅ postmark_fails ["run-1"] "org-1" [] Postmark _ _)).
  - done.
  - intros q. destruct q; vm_compute; split; congruence.
Defined.

(** * The merge against its reference *)

Lemma stats_ext (s s' : AggregatedStats) :
  (∀ f, stat f s = stat f s') → s = s'.
Proof.
  intros H. destruct s, s'.
  pose proof (H LeadsFound). pose proof (H EmailsGenerated).
  pose proof (H EmailsSent). pose proof (H EmailsOpened).
  pose proof (H EmailsClicked). pose proof (H EmailsReplied).
  pose proof (H EmailsBounced). pose proof (H RepliesWillingToMeet).
  pose proof (H RepliesInterested). pose proof (H RepliesNotInterested).
  pose proof (H RepliesOutOfOffice). pose proof (H RepliesUnsubscribe).
  cbn in *. congruence.
Qed.

Lemma stat_reference_merge f A E P I :
  stat f (reference_merge A E P I)
  = match f with
    | LeadsFound => Num (contribution A "leadsFound")
    | EmailsGenerated => Num (contribution E "emailsGenerated")
    | _ => Num (contribution P (stat_key f) + contribution I (stat_key f))
    end.
Proof. by destruct f. Qed.

Lemma stat_key_expected f p :
  sourced_from f p = true → stat_key f ∈ expected_keys p.
Proof. destruct f, p; cbn; intros; first [discriminate | set_solver]. Qed.

Lemma carries_single p outcome R f :
  sourced_from f p = true →
  carries p outcome R →
  field_or_zero outcome (stat_key f) = Num (contribution R (stat_key f)).
Proof.
  intros Hf Hc. destruct outcome as [data|], R as [|value]; cbn in *; try done.
  rewrite Forall_forall in Hc. by rewrite (Hc _ (stat_key_expected _ _ Hf)).
Qed.

Lemma carries_summed p outcome R f :
  sourced_from f Postmark = true →
  sourced_from f p = true →
  carries p outcome R →
  to_number (data_or_empty outcome !! stat_key f)
  = Num (contribution R (stat_key f)).
Proof.
  intros Hs Hf Hc. destruct outcome as [data|], R as [|value]; cbn in *; try done.
  - rewrite Forall_forall in Hc. by rewrite (Hc _ (stat_key_expected _ _ Hf)).
  - by rewrite EMPTY_SENDING_STATS_lookup.
Qed.

(** C3: the merged stats are those of the reference merge for whatever the
    four upstreams report, as long as the reported counters and the sums of
    the two sending providers are safe integers (the range in which the
    code's floating-point [+] is the exact sum): a single-source field is
    its provider's value on success and zero otherwise, a sending field is
    the sum of postmark's and instantly's values with a failed provider
    counting for zero.  With
    [emailsSent] reported as 5 by postmark and instantly failed the merged
    value is 5; postmark failed and instantly reporting 4 gives 4; 5 and 4
    together give 9.  When all four succeed the error list is empty. *)
Theorem C3_merge_matches_reference process_env world runIds clerkOrgId log :
  runIds ≠ [] →
  let results := fst (dispatch process_env world runIds clerkOrgId log) in
  let result := fst (getAggregatedStats process_env world runIds clerkOrgId log) in
  (∀ A E P I,
     carries Apollo (outcome_of results Apollo) A →
     carries EmailGen (outcome_of results EmailGen) E →
     carries Postmark (outcome_of results Postmark) P →
     carries Instantly (outcome_of results Instantly) I →
     safe_report Apollo A → safe_report EmailGen E →
     safe_report Postmark P → safe_report Instantly I →
     safe_sums P I →
     stats result = reference_merge A E P I)
  ∧ (∀ dp s e,
       outcome_of results Postmark = Ok dp → dp !! "emailsSent" = Some (JNum 5) →
       outcome_of results Instantly = Err s e →
       emailsSent (stats result) = Num 5)
  ∧ (∀ di s e,
       outcome_of results Postmark = Err s e →
       outcome_of results Instantly = Ok di → di !! "emailsSent" = Some (JNum 4) →
       emailsSent (stats result) = Num 4)
  ∧ (∀ dp di,
       outcome_of results Postmark = Ok dp → dp !! "emailsSent" = Some (JNum 5) →
       outcome_of results Instantly = Ok di → di !! "emailsSent" = Some (JNum 4) →
       emailsSent (stats result) = Num 9)
  ∧ ((∀ p, is_ok (outcome_of results p) = true) → errors result = []).
Proof.
  intros Hne results result.
  assert (Hres : result
    = collect_and_merge (outcome_of results Apollo) (outcome_of results EmailGen)
        (outcome_of results Postmark) (outcome_of results Instantly))
    by by apply getAggregatedStats_results.
  assert (Hsent : emailsSent (stats result)
    = js_plus (data_or_empty (outcome_of results Postmark) !! "emailsSent")
        (data_or_empty (outcome_of results Instantly) !! "emailsSent"))
    by by rewrite Hres.
  split; [|split; [|split; [|split]]].
  - intros A E P I Ha He Hp Hi _ _ _ _ _. apply stats_ext. intros f.
    rewrite Hres, stat_collect_and_merge, stat_reference_merge.
    destruct f;
      first [ by apply (carries_single Apollo _ _ LeadsFound)
            | by apply (carries_single EmailGen _ _ EmailsGenerated)
            | unfold js_plus;
              rewrite (carries_summed Postmark _ P), (carries_summed Instantly _ I)
                by done; reflexivity ].
  - intros dp s e Hp Hdp Hi. rewrite Hsent, Hp, Hi. cbn [data_or_empty].
    by rewrite Hdp.
  - intros di s e Hp Hi Hdi. rewrite Hsent, Hp, Hi. cbn [data_or_empty].
    by rewrite Hdi.
  - intros dp di Hp Hdp Hi Hdi. rewrite Hsent, Hp, Hi. cbn [data_or_empty].
    by rewrite Hdp, Hdi.
  - intros Hok. by apply errors_empty_iff.
Qed.

Lemma C3_merge_matches_reference_witness :
  stats (fst (getAggregatedStats ∅ all_respond ["run-1"] "org-1" []))
  = reference_merge (report_of APOLLO_STATS) (report_of EMAILGEN_STATS)
      (report_of POSTMARK_STATS) (report_of INSTANTLY_STATS).
Proof.
  refine (proj1 (C3_merge_matches_reference ∅ all_respond ["run-1"] "org-1" [] _)
            _ _ _ _ _ _ _ _ _ _ _ _ _).
  - done.
  - vm_compute. repeat constructor.
  - vm_compute. repeat constructor.
  - vm_compute. repeat constructor.
  - vm_compute. repeat constructor.
  - repeat (first [apply Forall_nil_2 | apply Forall_cons_2; [vm_compute; split; discriminate |]]).
  - repeat (first [apply Forall_nil_2 | apply Forall_cons_2; [vm_compute; split; discriminate |]]).
  - repeat (first [apply Forall_nil_2 | apply Forall_cons_2; [vm_compute; split; discriminate |]]).
  - repeat (first [apply Forall_nil_2 | apply Forall_cons_2; [vm_compute; split; discriminate |]]).
  - repeat (first [apply Forall_nil_2 | apply Forall_cons_2; [vm_compute; split; discriminate |]]).
Defined.

(** * Absent counters *)

(** A single-source counter that is absent or null in a successful payload
    reads as zero, and the upstream is not reported as failed. *)
Lemma absent_single_counter_is_zero process_env world runIds clerkOrgId log p f data :
  runIds ≠ [] →
  let results := fst (dispatch process_env world runIds clerkOrgId log) in
  let result := fst (getAggregatedStats process_env world runIds clerkOrgId log) in
  (p = Apollo ∨ p = EmailGen) → sourced_from f p = true →
  outcome_of results p = Ok data →
  data !! stat_key f = None ∨ data !! stat_key f = Some JNull →
  stat f (stats result) = Num 0
  ∧ filter (λ err, service err = provider_name p) (errors result) = [].
Proof.
  intros Hne results result Hp Hf Hdata Habsent. split.
  - subst result. rewrite getAggregatedStats_results by done. fold results.
    rewrite stat_collect_and_merge.
    destruct Hp as [-> | ->], f; try discriminate Hf; rewrite Hdata;
      cbn [field_or_zero stat_key] in *; by destruct Habsent as [-> | ->].
  - destruct (errors_shape process_env world runIds clerkOrgId log Hne) as [Herr _].
    fold results result in Herr. rewrite Herr.
    pose proof (outcome_of_service process_env world runIds clerkOrgId log) as Hs.
    fold results in Hs. unfold providers. cbn [omap list_omap].
    destruct Hp as [-> | ->]; rewrite Hdata; cbn [error_of];
    repeat match goal with
    | |- context [outcome_of results ?q] =>
        let E := fresh "E" in
        destruct (outcome_of results q) eqn:E; [| apply Hs in E as ->]
    end; cbn; rewrite ?filter_cons, ?filter_nil; cbn; repeat case_decide; done.
Qed.

(** A sending counter that is absent from a successful payload turns the
    merged counter into [NaN], whatever the other provider reports. *)
Lemma absent_sending_counter_is_NaN process_env world runIds clerkOrgId log p f data :
  runIds ≠ [] →
  let results := fst (dispatch process_env world runIds clerkOrgId log) in
  let result := fst (getAggregatedStats process_env world runIds clerkOrgId log) in
  (p = Postmark ∨ p = Instantly) → sourced_from f Postmark = true →
  outcome_of results p = Ok data →
  data !! stat_key f = None →
  stat f (stats result) = NaN.
Proof.
  intros Hne results result Hp Hf Hdata Habsent.
  subst result. rewrite getAggregatedStats_results by done. fold results.
  rewrite stat_collect_and_merge.
  destruct Hp as [-> | ->], f; try discriminate Hf; rewrite Hdata;
    cbn [data_or_empty stat_key] in *; rewrite Habsent; unfold js_plus; cbn;
    first [done | by destruct (to_number (_ !! _))].
Qed.

(** C4, at the failing input: postmark answers 200 with a payload that
    lacks [emailsBounced] while instantly reports 1.  No upstream is marked
    as failed, but the merged [emailsBounced] is [NaN], not instantly's
    contribution alone. *)
Theorem C4_absent_sending_counter :
  let results := fst (dispatch ∅ postmark_omits_bounced ["run-1"] "org-1" []) in
  let result := fst (getAggregatedStats ∅ postmark_omits_bounced ["run-1"] "org-1" []) in
  (∃ data, outcome_of results Postmark = Ok data ∧ data !! "emailsBounced" = None)
  ∧ (∃ data, outcome_of results Instantly = Ok data
             ∧ data !! "emailsBounced" = Some (JNum 1))
  ∧ errors result = []
  ∧ emailsBounced (stats result) = NaN
  ∧ emailsBounced (stats result) ≠ Num 1.
Proof.
  split; [|split; [|split; [|split]]].
  - eexists. split; [reflexivity | by vm_compute].
  - eexists. split; [reflexivity | by vm_compute].
  - by vm_compute.
  - by vm_compute.
  - by vm_compute.
Qed.

(** * Grouping leads by company *)

Example test_sample_leads :
  aggregateCompaniesFromLeads sample_leads
  = [ CompanyData.mk "company-0" "Acme" (Some "acme.com") None None 2 ["run-1"; "run-2"];
      CompanyData.mk "company-1" "Globex" None None None 1 [] ].
Proof. by vm_compute. Qed.

Lemma truthy_Some s : truthy (Some s) = true ↔ s ≠ "".
Proof.
  cbn. rewrite negb_true_iff. split.
  - intros H ->. by rewrite String.eqb_refl in H.
  - intros H. by apply String.eqb_neq.
Qed.

Lemma leads_named_snoc n leads lead :
  leads_named n (leads ++ [lead])
  = (leads_named n leads ++
     if decide (LeadData.organizationName lead = Some n) then [lead] else [])%list.
Proof.
  unfold leads_named. rewrite filter_app, filter_cons, filter_nil.
  by case_decide.
Qed.

Lemma entry_for_snoc_other leads lead n :
  LeadData.organizationName lead ≠ Some n →
  entry_for (leads ++ [lead]) n = entry_for leads n.
Proof.
  intros Hn. unfold entry_for. rewrite leads_named_snoc.
  rewrite (decide_False (P := LeadData.organizationName lead = Some n)) by done.
  by rewrite app_nil_r.
Qed.

Lemma entry_for_empty_name leads : entry_for leads "" = None.
Proof. unfold entry_for. by rewrite decide_True. Qed.

Lemma entry_for_snoc_existing leads lead o existing :
  LeadData.organizationName lead = Some o →
  entry_for leads o = Some existing →
  entry_for (leads ++ [lead]) o = Some (bump lead existing).
Proof.
  intros Ho. unfold entry_for. rewrite leads_named_snoc.
  rewrite (decide_True (P := LeadData.organizationName lead = Some o)) by done.
  case_decide; [done|]. generalize (leads_named o leads). intros g.
  destruct (head g) as [first|] eqn:Eh; [|done].
  intros [= <-].
  assert (head (g ++ [lead]) = Some first) as -> by (by destruct g).
  f_equal. unfold bump.
  cbn [CompanyEntry.name CompanyEntry.domain CompanyEntry.industry
       CompanyEntry.employeeCount CompanyEntry.leadsCount
       CompanyEntry.enrichmentRunIds].
  rewrite length_app, omap_app.
  f_equal; [cbn [length]; lia|]. unfold or_null. cbn [omap list_omap].
  destruct (LeadData.enrichmentRunId lead) as [r|];
    [destruct (truthy (Some r))|]; cbn; by rewrite ?app_nil_r.
Qed.

Lemma entry_for_snoc_fresh leads lead o :
  LeadData.organizationName lead = Some o →
  o ≠ "" →
  entry_for leads o = None →
  entry_for (leads ++ [lead]) o = Some (fresh o lead).
Proof.
  intros Ho Hne. unfold entry_for. rewrite leads_named_snoc.
  rewrite (decide_True (P := LeadData.organizationName lead = Some o)) by done.
  destruct (decide (o = "")) as [|_]; [done|].
  destruct (leads_named o leads) as [|first rest]; cbn [head app]; [|done].
  intros _. f_equal. unfold fresh. cbn [length omap list_omap]. f_equal.
  unfold or_null. destruct (LeadData.enrichmentRunId lead) as [r|]; [|done].
  by destruct (truthy (Some r)).
Qed.

Lemma grouped_new : grouped [] JsMap_new.
Proof.
  split; [|split]; cbn.
  - intros n. rewrite lookup_empty. unfold entry_for. by case_decide.
  - constructor.
  - intros n. rewrite lookup_empty. split; [by intros ?%elem_of_nil | by intros []].
Qed.

Lemma grouped_step leads m lead :
  grouped leads m → grouped (leads ++ [lead]) (group_lead m lead).
Proof.
  intros (Hbind & Hnodup & Hkeys). unfold group_lead.
  destruct (LeadData.organizationName lead) as [o|] eqn:Ho.
  2:{ split; [|done]. intros n. rewrite entry_for_snoc_other by congruence. apply Hbind. }
  destruct (truthy (Some o)) eqn:Ht; cbn [negb].
  2:{ split; [|done]. intros n.
      assert (o = "") as ->.
      { destruct (decide (o = "")); [done|]. apply truthy_Some in n0. congruence. }
      destruct (decide (n = "")) as [->|].
      - by rewrite !entry_for_empty_name, Hbind, entry_for_empty_name.
      - rewrite entry_for_snoc_other by congruence. apply Hbind. }
  apply truthy_Some in Ht. unfold JsMap_get.
  destruct (bindings m !! o) as [existing|] eqn:Hm.
  - split; [|split]; cbn.
    + intros n. destruct (decide (n = o)) as [->|Hn].
      * rewrite lookup_alter_eq, Hm. cbn.
        symmetry. apply entry_for_snoc_existing; [done|]. by rewrite <- Hbind.
      * rewrite lookup_alter_ne by done.
        rewrite entry_for_snoc_other by congruence. apply Hbind.
    + done.
    + intros n. rewrite Hkeys. destruct (decide (n = o)) as [->|Hn].
      * rewrite lookup_alter_eq, Hm. cbn. split; eauto.
      * by rewrite lookup_alter_ne.
  - unfold JsMap_set. rewrite Hm. split; [|split]; cbn.
    + intros n. destruct (decide (n = o)) as [->|Hn].
      * rewrite lookup_insert_eq. symmetry.
        apply entry_for_snoc_fresh; [done | done |]. by rewrite <- Hbind.
      * rewrite lookup_insert_ne by done.
        rewrite entry_for_snoc_other by congruence. apply Hbind.
    + apply NoDup_app. split; [done | split].
      * intros x Hx ->%list_elem_of_singleton. apply Hkeys in Hx.
        rewrite Hm in Hx. by destruct Hx.
      * apply NoDup_singleton.
    + intros n. rewrite elem_of_app, list_elem_of_singleton, Hkeys.
      destruct (decide (n = o)) as [->|Hn].
      * rewrite lookup_insert_eq. split; eauto.
      * rewrite lookup_insert_ne by done. split; [|by left].
        by intros [? | ?].
Qed.

Lemma grouped_foldl leads : grouped leads (foldl group_lead JsMap_new leads).
Proof.
  induction leads as [|lead leads IH] using rev_ind.
  - apply grouped_new.
  - rewrite foldl_app. cbn. by apply grouped_step.
Qed.

Lemma entries_lookup {V} (m : JsMap V) k v :
  (k, v) ∈ JsMap_entries m → bindings m !! k = Some v.
Proof.
  unfold JsMap_entries. rewrite list_elem_of_omap.
  intros (k' & _ & Hk). destruct (bindings m !! k') eqn:E; by simplify_eq/=.
Qed.

Lemma entries_keys {V} (b : gmap string V) (keys : list string) :
  (∀ k, k ∈ keys → is_Some (b !! k)) →
  (omap (λ k, (k,.) <$> b !! k) keys).*1 = keys.
Proof.
  induction keys as [|k keys IH]; intros Hkeys; [done|].
  cbn [omap list_omap]. destruct (Hkeys k) as [v Hv]; [by left|].
  rewrite Hv. cbn. f_equal. apply IH. intros k' Hk'. apply Hkeys. by right.
Qed.

Lemma entry_for_Some leads n e :
  entry_for leads n = Some e →
  n ≠ "" ∧ CompanyEntry.name e = n
  ∧ CompanyEntry.leadsCount e = length (leads_named n leads)
  ∧ CompanyEntry.enrichmentRunIds e
    = omap (λ lead, or_null (LeadData.enrichmentRunId lead)) (leads_named n leads)
  ∧ ∃ first, head (leads_named n leads) = Some first
      ∧ CompanyEntry.domain e = or_null (LeadData.organizationDomain first)
      ∧ CompanyEntry.industry e = or_null (LeadData.organizationIndustry first)
      ∧ CompanyEntry.employeeCount e = or_null (LeadData.organizationSize first).
Proof.
  unfold entry_for. case_decide; [done|].
  destruct (head (leads_named n leads)) as [first|] eqn:Eh; [|done].
  intros [= <-]. cbn. eauto 10.
Qed.

Lemma entry_for_is_Some leads n :
  is_Some (entry_for leads n)
  ↔ n ≠ "" ∧ ∃ lead, lead ∈ leads ∧ LeadData.organizationName lead = Some n.
Proof.
  split.
  - intros [e He]. apply entry_for_Some in He as (Hn & _ & _ & _ & first & Hf & _).
    split; [done|]. exists first.
    apply head_Some_elem_of in Hf. unfold leads_named in Hf.
    by apply list_elem_of_filter in Hf as [? ?].
  - intros (Hn & lead & Hin & Hname). unfold entry_for.
    rewrite decide_False by done.
    assert (Hg : lead ∈ leads_named n leads) by by apply list_elem_of_filter.
    destruct (leads_named n leads); [by apply elem_of_nil in Hg | by eexists].
Qed.

Lemma group_lead_ignored m lead :
  truthy (LeadData.organizationName lead) = false → group_lead m lead = m.
Proof.
  unfold group_lead. destruct (LeadData.organizationName lead); [|done].
  by intros ->.
Qed.

Lemma foldl_group_lead_filter m leads :
  foldl group_lead m
    (filter (λ lead, truthy (LeadData.organizationName lead) = true) leads)
  = foldl group_lead m leads.
Proof.
  revert m. induction leads as [|lead leads IH]; intros m; [done|].
  rewrite filter_cons. case_decide as Ht; cbn [foldl]; [apply IH|].
  rewrite group_lead_ignored by by destruct (truthy _). apply IH.
Qed.

Lemma companies_names leads :
  CompanyData.name <$> aggregateCompaniesFromLeads leads
  = key_order (foldl group_lead JsMap_new leads).
Proof.
  destruct (grouped_foldl leads) as (Hbind & _ & Hkeys).
  unfold aggregateCompaniesFromLeads. set (m := foldl group_lead JsMap_new leads) in *.
  rewrite fmap_imap.
  transitivity ((JsMap_entries m).*1);
    [|apply entries_keys; intros k; apply Hkeys].
  rewrite <- (imap_const fst (JsMap_entries m)). apply imap_ext.
  intros i [k e] Hi. cbn.
  apply list_elem_of_lookup_2, entries_lookup in Hi. rewrite Hbind in Hi.
  by apply entry_for_Some in Hi as (_ & -> & _).
Qed.

Lemma companies_elem leads c :
  c ∈ aggregateCompaniesFromLeads leads →
  ∃ e, entry_for leads (CompanyData.name c) = Some e
    ∧ CompanyData.domain c = CompanyEntry.domain e
    ∧ CompanyData.industry c = CompanyEntry.industry e
    ∧ CompanyData.employeeCount c = CompanyEntry.employeeCount e
    ∧ CompanyData.leadsCount c = CompanyEntry.leadsCount e
    ∧ CompanyData.enrichmentRunIds c = CompanyEntry.enrichmentRunIds e.
Proof.
  destruct (grouped_foldl leads) as (Hbind & _ & _).
  unfold aggregateCompaniesFromLeads. set (m := foldl group_lead JsMap_new leads) in *.
  intros (i & [k e] & -> & Hi)%elem_of_lookup_imap.
  apply list_elem_of_lookup_2, entries_lookup in Hi. rewrite Hbind in Hi.
  exists e. cbn. destruct (entry_for_Some _ _ _ Hi) as (_ & -> & _). done.
Qed.

(** C10, as the claim has it, fails on empty strings: for a single Acme lead
    whose run identifier and domain are empty strings, the company's
    [enrichmentRunIds] are not the non-null run identifiers of its leads, and
    its [domain] is not the one of its first lead. *)
Lemma C10_counterexample :
  ∃ c, aggregateCompaniesFromLeads [lead_with_empty_strings] = [c]
    ∧ CompanyData.enrichmentRunIds c
      ≠ omap LeadData.enrichmentRunId
          (leads_named (CompanyData.name c) [lead_with_empty_strings])
    ∧ head (leads_named (CompanyData.name c) [lead_with_empty_strings])
      = Some lead_with_empty_strings
    ∧ CompanyData.domain c ≠ LeadData.organizationDomain lead_with_empty_strings.
Proof. eexists. split; [reflexivity|]. by vm_compute. Qed.

(** C10, amended: leads whose [organizationName] is null or empty are
    ignored; the result has exactly one company per distinct name among the
    other leads; its [leadsCount] is the number of leads with that name, its
    [enrichmentRunIds] are the run identifiers of those leads that are
    neither null nor empty, in input order, and its [domain], [industry] and
    [employeeCount] are those of the first lead with that name, an empty
    string read as null. *)
Theorem C10_companies_from_leads (leads : list LeadData.t) :
  let companies := aggregateCompaniesFromLeads leads in
  aggregateCompaniesFromLeads
    (filter (λ lead, truthy (LeadData.organizationName lead) = true) leads)
  = companies
  ∧ NoDup (CompanyData.name <$> companies)
  ∧ (∀ n, n ∈ CompanyData.name <$> companies
          ↔ n ≠ "" ∧ ∃ lead, lead ∈ leads ∧ LeadData.organizationName lead = Some n)
  ∧ (∀ c, c ∈ companies →
       let group := leads_named (CompanyData.name c) leads in
       CompanyData.leadsCount c = length group
       ∧ CompanyData.enrichmentRunIds c
         = omap (λ lead, or_null (LeadData.enrichmentRunId lead)) group
       ∧ ∃ first, head group = Some first
           ∧ CompanyData.domain c = or_null (LeadData.organizationDomain first)
           ∧ CompanyData.industry c = or_null (LeadData.organizationIndustry first)
           ∧ CompanyData.employeeCount c = or_null (LeadData.organizationSize first)).
Proof.
  intros companies. subst companies.
  destruct (grouped_foldl leads) as (Hbind & Hnodup & Hkeys).
  split; [|split; [|split]].
  - unfold aggregateCompaniesFromLeads. by rewrite foldl_group_lead_filter.
  - by rewrite companies_names.
  - intros n. by rewrite companies_names, Hkeys, Hbind, entry_for_is_Some.
  - intros c (e & He & Hd & Hi & Hs & Hc & Hr)%companies_elem.
    apply entry_for_Some in He as (_ & _ & Hc' & Hr' & first & Hf & Hd' & Hi' & Hs').
    cbn zeta. rewrite Hc, Hr, Hd, Hi, Hs. eauto 10.
Qed.

Lemma C10_companies_from_leads_witness :
  ∃ c, c ∈ aggregateCompaniesFromLeads sample_leads
    ∧ CompanyData.name c = "Acme"
    ∧ CompanyData.leadsCount c = length (leads_named "Acme" sample_leads)
    ∧ CompanyData.enrichmentRunIds c
      = omap (λ lead, or_null (LeadData.enrichmentRunId lead))
          (leads_named "Acme" sample_leads).
Proof.
  exists (CompanyData.mk "company-0" "Acme" (Some "acme.com") None None 2
            ["run-1"; "run-2"]).
  assert (Hin : CompanyData.mk "company-0" "Acme" (Some "acme.com") None None 2
                  ["run-1"; "run-2"] ∈ aggregateCompaniesFromLeads sample_leads)
    by (vm_compute; left).
  split; [exact Hin|]. split; [reflexivity|].
  destruct (proj2 (proj2 (proj2 (C10_companies_from_leads sample_leads))) _ Hin)
    as (Hcount & Hruns & _).
  split; [exact Hcount | exact Hruns].
Defined.

(** * Loading leads *)

Lemma fetchData_run world url clerkOrgId apiKey log :
  let req := mkDataRequest url (stats_headers clerkOrgId apiKey) in
  fetchData world url clerkOrgId apiKey log
  = (result_of_answer (world (length log) req), (log ++ [req])%list).
Proof.
  unfold fetchData, fetchData_try, fetch_data, mbind, mret, Loading_bind, Loading_ret.
  cbn. destruct (world (length log) _) as [r|e]; cbn; [|done].
  destruct (data_ok r); cbn; [|done].
  by destruct (data_json r) as [e|body].
Qed.

Lemma push_enrichments_acc argument_limit result acc :
  push_enrichments argument_limit result acc
  = match push_enrichments argument_limit result [] with
    | inl e => inl e
    | inr items => inr (acc ++ items)%list
    end.
Proof.
  unfold push_enrichments. destruct (truthy_json _); [|by rewrite app_nil_r].
  destruct (enrichments_of result) as [v|]; [|by rewrite app_nil_r].
  destruct (iterate v) as [e|items]; [done|].
  by destruct (bool_decide _).
Qed.

Lemma getLeadsForRuns_loop_run process_env argument_limit world runIds clerkOrgId
    acc log :
  let turns := contribution_of argument_limit <$>
                 answers_from process_env world clerkOrgId (length log) runIds in
  getLeadsForRuns_loop process_env argument_limit world runIds clerkOrgId acc log
  = (gather acc turns,
     (log ++ (enrichments_request process_env clerkOrgId
                <$> take (attempted turns) runIds))%list).
Proof.
  revert acc log. induction runIds as [|runId runIds IH]; intros acc log.
  - cbn. by rewrite app_nil_r.
  - cbn [getLeadsForRuns_loop]. unfold mbind, Loading_bind.
    rewrite fetchData_run. cbn zeta.
    fold (enrichments_request process_env clerkOrgId runId).
    cbn [answers_from fmap list_fmap gather attempted].
    unfold contribution_of at 1 3. rewrite push_enrichments_acc.
    destruct (push_enrichments argument_limit _ []) as [e|items]; [done|].
    rewrite IH. rewrite length_app. cbn [length]. rewrite Nat.add_1_r.
    cbn [take fmap list_fmap]. by rewrite <- app_assoc.
Qed.

Lemma getLeadsForRuns_run process_env argument_limit world runIds clerkOrgId log :
  let turns := contribution_of argument_limit <$>
                 answers_from process_env world clerkOrgId (length log) runIds in
  getLeadsForRuns process_env argument_limit world runIds clerkOrgId log
  = (gather [] turns,
     (log ++ (enrichments_request process_env clerkOrgId
                <$> take (attempted turns) runIds))%list).
Proof.
  unfold getLeadsForRuns. destruct runIds as [|runId runIds].
  - cbn. by rewrite app_nil_r.
  - rewrite bool_decide_eq_false_2 by (cbn; lia).
    by rewrite getLeadsForRuns_loop_run.
Qed.

Lemma answers_from_lookup process_env world clerkOrgId n runIds k :
  answers_from process_env world clerkOrgId n runIds !! k
  = (λ runId, world (n + k) (enrichments_request process_env clerkOrgId runId))
      <$> runIds !! k.
Proof.
  revert n k. induction runIds as [|runId runIds IH]; intros n k; [done|].
  destruct k as [|k]; cbn.
  - by rewrite Nat.add_0_r.
  - rewrite IH. by rewrite Nat.add_succ_r.
Qed.

Lemma answers_from_app process_env world clerkOrgId n runIds runIds' :
  answers_from process_env world clerkOrgId n (runIds ++ runIds')
  = (answers_from process_env world clerkOrgId n runIds ++
     answers_from process_env world clerkOrgId (n + length runIds) runIds')%list.
Proof.
  revert n. induction runIds as [|runId runIds IH]; intros n; cbn.
  - by rewrite Nat.add_0_r.
  - rewrite IH. by rewrite Nat.add_succ_r.
Qed.

Lemma answers_from_length process_env world clerkOrgId n runIds :
  length (answers_from process_env world clerkOrgId n runIds) = length runIds.
Proof. revert n. induction runIds as [|runId runIds IH]; intros n; cbn; by rewrite ?IH. Qed.

Lemma elem_of_concat {A} (x : A) (ls : list (list A)) :
  x ∈ concat ls ↔ ∃ l, x ∈ l ∧ l ∈ ls.
Proof.
  induction ls as [|l ls IH]; cbn.
  - split; [by intros ?%elem_of_nil | by intros (? & _ & ?%elem_of_nil)].
  - rewrite elem_of_app, IH. split.
    + intros [Hx | (l' & Hx & Hl')]; [exists l | exists l']; split; try done;
        [by left | by right].
    + intros (l' & Hx & Hl'). apply elem_of_cons in Hl' as [-> | Hl'];
        [by left | right; by exists l'].
Qed.

(** The turns of a call that returns: none raised, all were taken. *)
Lemma gather_inr acc turns leads :
  gather acc turns = inr leads
  ↔ ∃ added, turns = inr <$> added ∧ leads = (acc ++ concat added)%list.
Proof.
  revert acc. induction turns as [|[e|items] turns IH]; intros acc; cbn.
  - split.
    + intros [= <-]. exists []. by rewrite app_nil_r.
    + intros ([|? ?] & Heq & ->); [by rewrite app_nil_r | done].
  - split; [done|]. by intros ([|? ?] & Heq & _).
  - rewrite IH. split.
    + intros (added & -> & ->). exists (items :: added). by rewrite <- app_assoc.
    + intros ([|items' added] & Heq & ->); [done|].
      injection Heq as -> ->. exists added. by rewrite <- app_assoc.
Qed.

Lemma attempted_inr (added : list (list Json)) :
  attempted (inr <$> added) = length added.
Proof. induction added as [|items added IH]; cbn; by rewrite ?IH. Qed.

Lemma attempted_le turns : (attempted turns ≤ length turns)%nat.
Proof. induction turns as [|[e|items] turns IH]; cbn; lia. Qed.

(** The turns of a call that raises: the first one that raises has the
    error, and it is the last one taken. *)
Lemma gather_inl acc turns e :
  gather acc turns = inl e
  ↔ ∃ k, turns !! k = Some (inl e)
       ∧ (∀ j, (j < k)%nat → ∃ items, turns !! j = Some (inr items))
       ∧ attempted turns = S k.
Proof.
  revert acc. induction turns as [|[e'|items] turns IH]; intros acc; cbn.
  - split; [done|]. by intros (k & Hk & _).
  - split.
    + intros [= ->]. exists 0%nat. split; [done|]. split; [lia | done].
    + intros ([|k] & Hk & Hbefore & Hn).
      * by injection Hk as ->.
      * destruct (Hbefore 0%nat) as (items & Hitems); [lia | done].
  - rewrite IH. split.
    + intros (k & Hk & Hbefore & Hn). exists (S k). split; [done|].
      split; [|by rewrite Hn].
      intros [|j] Hj; [by exists items|]. apply Hbefore. lia.
    + intros ([|k] & Hk & Hbefore & Hn); [done|].
      exists k. split; [done|]. split; [|lia].
      intros j Hj. apply (Hbefore (S j)). lia.
Qed.

Lemma gather_app acc turns turns' :
  gather acc (turns ++ turns')
  = match gather acc turns with
    | inl e => inl e
    | inr leads => gather leads turns'
    end.
Proof.
  revert acc. induction turns as [|[e|items] turns IH]; intros acc; cbn; [done..|].
  by rewrite IH.
Qed.

Lemma gather_acc acc turns :
  gather acc turns
  = match gather [] turns with
    | inl e => inl e
    | inr leads => inr (acc ++ leads)%list
    end.
Proof.
  revert acc. induction turns as [|[e|items] turns IH]; intros acc; cbn.
  - by rewrite app_nil_r.
  - done.
  - rewrite (IH (acc ++ items)%list), (IH items).
    destruct (gather [] turns); [done|]. by rewrite app_assoc.
Qed.

Lemma attempted_app turns turns' :
  attempted (turns ++ turns')
  = match gather [] turns with
    | inl _ => attempted turns
    | inr _ => (length turns + attempted turns')%nat
    end.
Proof.
  induction turns as [|[e|items] turns IH]; cbn; [done..|].
  rewrite IH, (gather_acc items). by destruct (gather [] turns).
Qed.

Lemma gather_nothing acc turns :
  Forall (λ turn, turn = inr []) turns →
  gather acc turns = inr acc ∧ attempted turns = length turns.
Proof.
  intros Hturns. revert acc. induction Hturns as [|turn turns -> _ IH]; intros acc; [done|].
  cbn. rewrite app_nil_r. destruct (IH acc) as [-> ->]. done.
Qed.

(** What a turn appends, read off the answer. *)
Lemma contribution_of_inr argument_limit answer items :
  contribution_of argument_limit answer = inr items
  → items = []
    ∨ ∃ r body v,
        answer = DataResolves r ∧ data_ok r = true ∧ data_json r = inr body
        ∧ enrichments_of body = Some v ∧ iterate v = inr items
        ∧ (length items ≤ argument_limit)%nat.
Proof.
  unfold contribution_of, push_enrichments.
  destruct answer as [r|e]; cbn [result_of_answer];
    [destruct (data_ok r) eqn:Hok; [destruct (data_json r) as [e|body] eqn:Hj|]|];
    try (cbn; intros [= <-]; by left).
  destruct (truthy_json _); [|intros [= <-]; by left].
  destruct (enrichments_of body) as [v|] eqn:Hv; [|intros [= <-]; by left].
  destruct (iterate v) as [e|items'] eqn:Hit; [done|].
  destruct (bool_decide _) eqn:Hfit; [|done].
  intros [= <-]. right. exists r, body, v. split_and!; try done.
  by eapply bool_decide_eq_true_1.
Qed.

Lemma contribution_of_iterated argument_limit r body v items :
  data_ok r = true → data_json r = inr body →
  enrichments_of body = Some v → iterate v = inr items →
  contribution_of argument_limit (DataResolves r)
  = if bool_decide (length items ≤ argument_limit)%nat then inr items
    else inl (ThrownError call_stack_message None).
Proof.
  intros Hok Hj Hv Hit.
  unfold contribution_of, push_enrichments. cbn [result_of_answer].
  rewrite Hok, Hj, Hv, Hit.
  destruct (truthy_json (Some v)) eqn:Ht; [done|].
  destruct v as [|b|n|s|items'|properties]; try done.
  cbn in Ht, Hit. apply negb_false_iff, String.eqb_eq in Ht as ->.
  injection Hit as <-. cbn. by rewrite bool_decide_eq_true_2 by lia.
Qed.

Lemma contribution_of_no_leads argument_limit answer :
  no_leads answer → contribution_of argument_limit answer = inr [].
Proof.
  unfold contribution_of, push_enrichments.
  destruct answer as [r|e]; cbn [no_leads result_of_answer]; [|done].
  intros [-> | [(e & ->) | (body & -> & Hfalsy)]]; [done | by destruct (data_ok r) |].
  destruct (data_ok r); [|done]. by rewrite Hfalsy.
Qed.

Lemma contribution_of_not_iterable argument_limit r body v :
  data_ok r = true → data_json r = inr body →
  enrichments_of body = Some v → not_iterable v →
  ∃ e, contribution_of argument_limit (DataResolves r) = inl e.
Proof.
  intros Hok Hj Hv [Ht (e & Hit)]. exists e.
  unfold contribution_of, push_enrichments. cbn [result_of_answer].
  by rewrite Hok, Hj, Hv, Ht, Hit.
Qed.

Lemma attempted_raises turns k e :
  turns !! k = Some (inl e) → ∃ e', gather [] turns = inl e' ∧ (attempted turns ≤ S k)%nat.
Proof.
  revert k. induction turns as [|[e'|items] turns IH]; intros k Hk; [done|..].
  - exists e'. cbn. split; [done | lia].
  - destruct k as [|k]; [done|]. cbn in Hk.
    destruct (IH k Hk) as (e' & Hg & Hn). exists e'. cbn.
    rewrite gather_acc, Hg. split; [done | lia].
Qed.

Example test_second_run_fails :
  getLeadsForRuns ∅ 1000 second_run_fails ["run-1"; "run-2"; "run-3"] "org-1" []
  = (inr [acme_json; globex_json],
     [enrichments_request ∅ "org-1" "run-1"; enrichments_request ∅ "org-1" "run-2";
      enrichments_request ∅ "org-1" "run-3"]).
Proof. by vm_compute. Qed.

Example test_second_run_object :
  getLeadsForRuns ∅ 1000 second_run_object ["run-1"; "run-2"; "run-3"] "org-1" []
  = (inl (ThrownError not_iterable_message None),
     [enrichments_request ∅ "org-1" "run-1"; enrichments_request ∅ "org-1" "run-2"]).
Proof. by vm_compute. Qed.

Example test_string_enrichments :
  fst (getLeadsForRuns ∅ 1000 string_enrichments ["run-1"] "org-1" [])
  = inr [JsonString "a"; JsonString "b"].
Proof. by vm_compute. Qed.

(** X1: [getLeadsForRuns] issues its GETs in the order of [runIds], one per
    run identifier, each to [<apollo>/enrichments/<runId>] with the org
    header.  A call that returns has issued one for every run: a failed run
    (rejected fetch, error status, unparsable body) does not stop the loop,
    and the empty list issues nothing.  A call that raises has stopped at
    the run whose answer made the spread raise: it issued the requests up to
    that run and none after it. *)
Theorem getLeadsForRuns_requests process_env argument_limit world runIds
    clerkOrgId log :
  let request := λ runId,
    mkDataRequest (APOLLO_SERVICE_URL process_env +:+ "/enrichments/" +:+ runId)
      (stats_headers clerkOrgId (APOLLO_SERVICE_API_KEY process_env)) in
  let run := getLeadsForRuns process_env argument_limit world runIds clerkOrgId log in
  (∃ n, (n ≤ length runIds)%nat ∧ snd run = (log ++ (request <$> take n runIds))%list)
  ∧ (∀ leads, fst run = inr leads → snd run = (log ++ (request <$> runIds))%list)
  ∧ (∀ e, fst run = inl e →
       ∃ k runId,
         runIds !! k = Some runId
         ∧ contribution_of argument_limit (world (length log + k) (request runId)) = inl e
         ∧ (∀ j runId', (j < k)%nat → runIds !! j = Some runId' →
              ∃ items, contribution_of argument_limit
                         (world (length log + j) (request runId')) = inr items)
         ∧ snd run = (log ++ (request <$> take (S k) runIds))%list).
Proof.
  intros request run. subst run. rewrite getLeadsForRuns_run. cbn [fst snd].
  change request with (enrichments_request process_env clerkOrgId).
  set (turns := contribution_of argument_limit <$> _).
  assert (Hlen : length turns = length runIds)
    by (unfold turns; by rewrite length_fmap, answers_from_length).
  assert (Hturn : ∀ k, turns !! k
            = (λ runId, contribution_of argument_limit
                 (world (length log + k)
                    (enrichments_request process_env clerkOrgId runId)))
              <$> runIds !! k).
  { intros k. unfold turns. rewrite list_lookup_fmap, answers_from_lookup.
    by destruct (runIds !! k). }
  split; [|split].
  - exists (attempted turns). split; [|done]. rewrite <- Hlen. apply attempted_le.
  - intros leads (added & Hadded & _)%gather_inr.
    rewrite Hadded, attempted_inr.
    assert (length added = length runIds) as -> by by rewrite <- Hlen, Hadded, length_fmap.
    by rewrite firstn_all.
  - intros e (k & Hk & Hbefore & ->)%gather_inl.
    rewrite Hturn in Hk. destruct (runIds !! k) as [runId|] eqn:Hrun; [|done].
    injection Hk as Hk. exists k, runId. split_and!; try done.
    intros j runId' Hj Hrun'. destruct (Hbefore j Hj) as (items & Hitems).
    rewrite Hturn, Hrun' in Hitems. injection Hitems as Hitems. by exists items.
Qed.

(** X2: the outcome of [getLeadsForRuns] is that of the turns of its loop
    taken in the order of [runIds], the turn of the k-th run depending on
    the answer to the k-th request only: the items of the answers are
    appended in that order until an answer makes the spread raise, and the
    error of that answer is then the outcome.  When every run is answered
    with a success status and an [enrichments] array within the argument
    limit, the call returns the concatenation of these arrays. *)
Theorem getLeadsForRuns_result process_env argument_limit world runIds clerkOrgId log :
  let answer := λ k runId,
    world (length log + k) (enrichments_request process_env clerkOrgId runId) in
  let run := getLeadsForRuns process_env argument_limit world runIds clerkOrgId log in
  fst run = gather [] (imap (λ k runId, contribution_of argument_limit (answer k runId))
                         runIds)
  ∧ (∀ arrays,
       length arrays = length runIds →
       (∀ k runId items, runIds !! k = Some runId → arrays !! k = Some items →
          (length items ≤ argument_limit)%nat
          ∧ ∃ r properties,
              answer k runId = DataResolves r ∧ data_ok r = true
              ∧ data_json r = inr (JsonObject properties)
              ∧ own_property "enrichments" properties = Some (JsonArray items)) →
       fst run = inr (concat arrays)).
Proof.
  intros answer run.
  assert (Hrun : fst run
            = gather [] (imap (λ k runId, contribution_of argument_limit (answer k runId))
                           runIds)).
  { subst run. rewrite getLeadsForRuns_run. cbn [fst]. f_equal.
    apply list_eq. intros k.
    rewrite list_lookup_fmap, answers_from_lookup, list_lookup_imap.
    by destruct (runIds !! k). }
  split; [done|].
  intros arrays Hlen Harrays. rewrite Hrun. apply gather_inr.
  exists arrays. split; [|done].
  apply list_eq. intros k. rewrite list_lookup_imap, list_lookup_fmap.
  destruct (runIds !! k) as [runId|] eqn:Hk.
  - destruct (arrays !! k) as [items|] eqn:Ha.
    + cbn. f_equal.
      destruct (Harrays k runId items Hk Ha) as (Hfit & r & properties & -> & Hok & Hj & Hv).
      rewrite (contribution_of_iterated _ r _ (JsonArray items) items) by done.
      by rewrite bool_decide_eq_true_2.
    + apply lookup_ge_None in Ha. apply lookup_lt_Some in Hk. lia.
  - destruct (arrays !! k) as [items|] eqn:Ha; [|done].
    apply lookup_ge_None in Hk. apply lookup_lt_Some in Ha. lia.
Qed.

(** X3: when [getLeadsForRuns] returns, a value is among the leads exactly
    when some run's request was answered with a success status and a body
    whose [enrichments] iterates over it (an element of the array, or a
    character when [enrichments] is a string): nothing is invented and
    nothing of a successful answer is lost. *)
Theorem getLeadsForRuns_elem process_env argument_limit world runIds clerkOrgId log
    leads lead :
  fst (getLeadsForRuns process_env argument_limit world runIds clerkOrgId log)
    = inr leads →
  lead ∈ leads
  ↔ ∃ k runId r body v items,
      runIds !! k = Some runId
      ∧ world (length log + k) (enrichments_request process_env clerkOrgId runId)
        = DataResolves r
      ∧ data_ok r = true
      ∧ data_json r = inr body
      ∧ enrichments_of body = Some v
      ∧ iterate v = inr items
      ∧ lead ∈ items.
Proof.
  rewrite getLeadsForRuns_run. cbn [fst].
  intros (added & Hadded & ->)%gather_inr. cbn [app].
  assert (Hturn : ∀ k, (inr <$> added : list (Thrown + list Json)) !! k
            = (λ runId, contribution_of argument_limit
                 (world (length log + k)
                    (enrichments_request process_env clerkOrgId runId)))
              <$> runIds !! k).
  { intros k. rewrite <- Hadded, list_lookup_fmap, answers_from_lookup.
    by destruct (runIds !! k). }
  rewrite elem_of_concat. split.
  - intros (items & Hlead & Hitems).
    apply list_elem_of_lookup in Hitems as (k & Hk).
    specialize (Hturn k). rewrite list_lookup_fmap, Hk in Hturn. cbn in Hturn.
    destruct (runIds !! k) as [runId|] eqn:Hrun; [|done].
    injection Hturn as Hturn. symmetry in Hturn.
    apply contribution_of_inr in Hturn as [-> | (r & body & v & Hw & Hok & Hj & Hv & Hit & _)].
    + by apply elem_of_nil in Hlead.
    + by exists k, runId, r, body, v, items.
  - intros (k & runId & r & body & v & items & Hrun & Hw & Hok & Hj & Hv & Hit & Hin).
    specialize (Hturn k). rewrite list_lookup_fmap, Hrun in Hturn. cbn in Hturn.
    rewrite Hw in Hturn. destruct (added !! k) as [items'|] eqn:Hk; [|done].
    injection Hturn as Hturn.
    rewrite (contribution_of_iterated _ r body v items) in Hturn by done.
    destruct (bool_decide _); [|done]. injection Hturn as ->.
    exists items. split; [done|]. by eapply list_elem_of_lookup_2.
Qed.

Lemma getLeadsForRuns_elem_witness :
  globex_json ∈ [acme_json; globex_json]
  ↔ ∃ k runId r body v items,
      ["run-1"; "run-2"; "run-3"] !! k = Some runId
      ∧ second_run_fails (length (@nil DataRequest) + k)
          (enrichments_request ∅ "org-1" runId) = DataResolves r
      ∧ data_ok r = true
      ∧ data_json r = inr body
      ∧ enrichments_of body = Some v
      ∧ iterate v = inr items
      ∧ globex_json ∈ items.
Proof.
  apply (getLeadsForRuns_elem ∅ 1000 second_run_fails ["run-1"; "run-2"; "run-3"]
           "org-1" [] [acme_json; globex_json] globex_json).
  by vm_compute.
Defined.

(** X4: loading the leads of [runIds ++ runIds'] is loading those of
    [runIds], then, unless that raised, those of [runIds'] from the request
    log reached, and appending the two lists; an error of either part is
    the error of the whole, and after an error of the first part nothing is
    requested for the second. *)
Theorem getLeadsForRuns_app process_env argument_limit world runIds runIds'
    clerkOrgId log :
  getLeadsForRuns process_env argument_limit world (runIds ++ runIds') clerkOrgId log
  = (let '(first, log1) :=
       getLeadsForRuns process_env argument_limit world runIds clerkOrgId log in
     match first with
     | inl e => (inl e, log1)
     | inr leads =>
         let '(second, log2) :=
           getLeadsForRuns process_env argument_limit world runIds' clerkOrgId log1 in
         (match second with
          | inl e => inl e
          | inr leads' => inr (leads ++ leads')%list
          end, log2)
     end).
Proof.
  rewrite (getLeadsForRuns_run _ _ _ (runIds ++ runIds')).
  rewrite (getLeadsForRuns_run _ _ _ runIds). cbn zeta.
  rewrite answers_from_app, fmap_app, gather_app, attempted_app.
  set (turns := contribution_of argument_limit <$>
                  answers_from process_env world clerkOrgId (length log) runIds).
  assert (Hlen : length turns = length runIds)
    by (unfold turns; by rewrite length_fmap, answers_from_length).
  destruct (gather [] turns) as [e|leads] eqn:Hg.
  - f_equal. f_equal. f_equal.
    rewrite take_app_le; [done|]. rewrite <- Hlen. apply attempted_le.
  - apply gather_inr in Hg as (added & Hadded & ->). cbn [app].
    assert (Hatt : attempted turns = length runIds).
    { rewrite Hadded, attempted_inr. by rewrite <- Hlen, Hadded, length_fmap. }
    rewrite getLeadsForRuns_run. cbn zeta.
    rewrite length_app, length_fmap, Hatt, firstn_all.
    set (turns' := contribution_of argument_limit <$> _).
    rewrite (gather_acc (concat added)).
    rewrite Hlen, take_app_add, fmap_app, app_assoc by done.
    by destruct (gather [] turns').
Qed.

(** X5: when no run is answered with a success status and a truthy
    [enrichments] (rejected fetch, error status, unparsable body, a body
    without the property or with a falsy one), [getLeadsForRuns] returns
    the empty list rather than raising, after one request per run. *)
Theorem getLeadsForRuns_all_fail process_env argument_limit world runIds clerkOrgId log :
  (∀ k runId, runIds !! k = Some runId →
     no_leads (world (length log + k)
                 (enrichments_request process_env clerkOrgId runId))) →
  getLeadsForRuns process_env argument_limit world runIds clerkOrgId log
  = (inr [], (log ++ (enrichments_request process_env clerkOrgId <$> runIds))%list).
Proof.
  intros Hfail. rewrite getLeadsForRuns_run. cbn zeta.
  set (turns := contribution_of argument_limit <$> _).
  assert (Hturns : Forall (λ turn, turn = inr []) turns).
  { apply Forall_lookup. intros k turn. unfold turns.
    rewrite list_lookup_fmap, answers_from_lookup.
    destruct (runIds !! k) as [runId|] eqn:Hk; [|done].
    cbn. intros [= <-]. apply contribution_of_no_leads. by apply Hfail. }
  destruct (gather_nothing [] turns Hturns) as [-> ->].
  unfold turns. by rewrite length_fmap, answers_from_length, firstn_all.
Qed.

Lemma getLeadsForRuns_all_fail_witness :
  getLeadsForRuns ∅ 1000 (mockData [errorData 500; DataRejects connError;
                                    okData (JsonNumber PrimFloat.zero)])
    ["run-1"; "run-2"; "run-3"] "org-1" []
  = (inr [], ([] ++ (enrichments_request ∅ "org-1" <$> ["run-1"; "run-2"; "run-3"]))%list).
Proof.
  apply getLeadsForRuns_all_fail.
  intros [|[|[|k]]] runId Hk; cbn in Hk; [| | |done].
  - left. reflexivity.
  - exact I.
  - right. right. eexists. split; reflexivity.
Defined.

(** X24: an answer with a success status whose [enrichments] is truthy but
    not iterable ([true], a number other than zero, an object) makes
    [getLeadsForRuns] raise: the spread is outside every [try].  The leads
    of the other runs are lost with it, and no run after that one is
    requested. *)
Theorem getLeadsForRuns_raises process_env argument_limit world runIds clerkOrgId log
    k runId r body v :
  runIds !! k = Some runId →
  world (length log + k) (enrichments_request process_env clerkOrgId runId)
    = DataResolves r →
  data_ok r = true →
  data_json r = inr body →
  enrichments_of body = Some v →
  not_iterable v →
  let run := getLeadsForRuns process_env argument_limit world runIds clerkOrgId log in
  (∃ e, fst run = inl e)
  ∧ ∃ n, (n ≤ S k)%nat
       ∧ snd run = (log ++ (enrichments_request process_env clerkOrgId
                              <$> take n runIds))%list.
Proof.
  intros Hrun Hw Hok Hj Hv Hnot run. subst run.
  rewrite getLeadsForRuns_run. cbn [fst snd].
  set (turns := contribution_of argument_limit <$> _).
  destruct (contribution_of_not_iterable argument_limit r body v Hok Hj Hv Hnot)
    as (e & He).
  assert (Hk : turns !! k = Some (inl e)).
  { unfold turns. rewrite list_lookup_fmap, answers_from_lookup, Hrun. cbn.
    by rewrite Hw, He. }
  destruct (attempted_raises turns k e Hk) as (e' & Hg & Hn).
  split; [by exists e' | by exists (attempted turns)].
Qed.

Lemma getLeadsForRuns_raises_witness :
  (∃ e, fst (getLeadsForRuns ∅ 1000 second_run_object
               ["run-1"; "run-2"; "run-3"] "org-1" []) = inl e)
  ∧ ∃ n, (n ≤ 2)%nat
       ∧ snd (getLeadsForRuns ∅ 1000 second_run_object
                ["run-1"; "run-2"; "run-3"] "org-1" [])
         = ([] ++ (enrichments_request ∅ "org-1"
                     <$> take n ["run-1"; "run-2"; "run-3"]))%list.
Proof.
  apply (getLeadsForRuns_raises ∅ 1000 second_run_object
           ["run-1"; "run-2"; "run-3"] "org-1" [] 1 "run-2"
           (mkDataResponse true 200 (inr (JsonObject [("enrichments", JsonObject [])])))
           (JsonObject [("enrichments", JsonObject [])]) (JsonObject []));
    try reflexivity.
  split; [reflexivity | by eexists].
Defined.

(** * More on the upstream stat client *)

Lemma stats_headers_lookup clerkOrgId apiKey :
  stats_headers clerkOrgId apiKey !! "Content-Type" = Some "application/json"
  ∧ stats_headers clerkOrgId apiKey !! "X-Clerk-Org-Id" = Some clerkOrgId
  ∧ stats_headers clerkOrgId apiKey !! "X-API-Key" = or_null apiKey.
Proof.
  unfold stats_headers, or_null, truthy.
  destruct apiKey as [k|]; [destruct (String.eqb k "")|]; cbn;
    by simplify_map_eq.
Qed.

(** X9: [fetchStats] returns a success exactly when the response has a
    success status and a parsed body whose [stats] is neither absent nor
    null, and the payload it returns is that [stats] value, untouched. *)
Theorem fetchStats_ok_iff {T} (world : World T)
    url serviceName clerkOrgId body apiKey log (v : T) :
  fst (fetchStats world url serviceName clerkOrgId body apiKey log) = Ok v
  ↔ ∃ r, world (length log)
           (mkRequest url "POST" (stats_headers clerkOrgId apiKey) body)
         = Resolves r
       ∧ ok r = true ∧ json r = JsonBody (StatsValue v).
Proof.
  rewrite fetchStats_run. cbn [fst]. split.
  - destruct (world _ _) as [r|e]; cbn; [|done].
    destruct (ok r) eqn:Hok; [|done].
    destruct (json r) as [e| |[| |v']] eqn:Hj; try done.
    intros [= ->]. by exists r.
  - intros (r & -> & Hok & Hj). cbn. by rewrite Hok, Hj.
Qed.

(** X10: a call of [getAggregatedStats] with run identifiers sends exactly
    four POST requests, to [/stats] of apollo, emailgen, postmark and
    instantly in this order; each carries the run identifiers as its body,
    the JSON content type and the caller's org in [X-Clerk-Org-Id]; each
    carries in [X-API-Key] the key configured for its own service, and no
    such header when that key is unset or empty. *)
Theorem getAggregatedStats_requests process_env world runIds clerkOrgId log :
  runIds ≠ [] →
  ∃ sent,
    snd (getAggregatedStats process_env world runIds clerkOrgId log)
    = (log ++ sent)%list
    ∧ url <$> sent
      = [APOLLO_SERVICE_URL process_env +:+ "/stats";
         EMAILGENERATION_SERVICE_URL process_env +:+ "/stats";
         POSTMARK_SERVICE_URL process_env +:+ "/stats";
         INSTANTLY_SERVICE_URL process_env +:+ "/stats"]
    ∧ Forall (λ req,
        method req = "POST" ∧ body_runIds req = runIds
        ∧ headers req !! "Content-Type" = Some "application/json"
        ∧ headers req !! "X-Clerk-Org-Id" = Some clerkOrgId) sent
    ∧ (λ req, headers req !! "X-API-Key") <$> sent
      = or_null <$> [APOLLO_SERVICE_API_KEY process_env;
                     EMAILGENERATION_SERVICE_API_KEY process_env;
                     POSTMARK_SERVICE_API_KEY process_env;
                     INSTANTLY_SERVICE_API_KEY process_env].
Proof.
  intros Hne. eexists. rewrite getAggregatedStats_log by done.
  split; [reflexivity|]. unfold providers.
  cbn [map fmap list_fmap upstream_request url headers method body_runIds].
  split; [done|]. split.
  - repeat constructor; apply stats_headers_lookup.
  - repeat f_equal; apply stats_headers_lookup.
Qed.

Lemma getAggregatedStats_requests_witness :
  ∃ sent,
    snd (getAggregatedStats {["POSTMARK_SERVICE_API_KEY" := "pm-key"]}
           all_respond ["run-1"] "org-1" []) = sent
    ∧ (λ req, headers req !! "X-API-Key") <$> sent
      = [None; None; Some "pm-key"; None].
Proof.
  destruct (getAggregatedStats_requests {["POSTMARK_SERVICE_API_KEY" := "pm-key"]}
              all_respond ["run-1"] "org-1" []) as (sent & Hlog & _ & _ & Hkeys);
    [done|].
  exists sent. split; [exact Hlog | exact Hkeys].
Defined.

(** * More on the merge *)

Lemma js_add_comm a b : js_add a b = js_add b a.
Proof. destruct a, b; cbn; [by rewrite Z.add_comm | done..]. Qed.

Lemma addSendingStats_comm a b : addSendingStats a b = addSendingStats b a.
Proof. unfold addSendingStats, js_plus. f_equal; apply js_add_comm. Qed.

Lemma data_or_empty_classify s s' (answer : FetchOutcome StatsObject) :
  data_or_empty (classify s answer) = data_or_empty (classify s' answer).
Proof.
  destruct answer as [r|e]; cbn; [|done].
  destruct (ok r); [|done]. by destruct (json r) as [| |[]].
Qed.

Lemma js_add_NaN a b : js_add a b = NaN ↔ a = NaN ∨ b = NaN.
Proof.
  destruct a, b; cbn; split; try done; try (by left); try (by right);
    by intros [? | ?].
Qed.

Lemma to_number_NaN v : to_number v = NaN ↔ v = None.
Proof. by destruct v as [[]|]. Qed.

Lemma field_or_zero_not_NaN outcome key : field_or_zero outcome key ≠ NaN.
Proof.
  destruct outcome as [data|]; cbn; [|done].
  by destruct (data !! key) as [[]|].
Qed.

(** The stats are a function of the numbers read from the four results. *)
Lemma stats_collect_and_merge_ext a e p i a' e' p' i' :
  field_or_zero a "leadsFound" = field_or_zero a' "leadsFound" →
  field_or_zero e "emailsGenerated" = field_or_zero e' "emailsGenerated" →
  (∀ f, sourced_from f Postmark = true →
     to_number (data_or_empty p !! stat_key f)
     = to_number (data_or_empty p' !! stat_key f)) →
  (∀ f, sourced_from f Postmark = true →
     to_number (data_or_empty i !! stat_key f)
     = to_number (data_or_empty i' !! stat_key f)) →
  stats (collect_and_merge a e p i) = stats (collect_and_merge a' e' p' i').
Proof.
  intros Ha He Hp Hi. apply stats_ext. intros f.
  rewrite !stat_collect_and_merge.
  destruct f; try done; unfold js_plus; by rewrite Hp, Hi.
Qed.

(** X11: postmark and instantly are interchangeable for the stats as long
    as their counters are numbers: if the answers of the two sending
    providers are swapped, the other two being the same, and every sending
    counter of a successful sending payload is absent, [null] or a safe
    integer, [getAggregatedStats] returns the same stats.  (For a counter
    sent as a string [+] concatenates, and the order of the operands
    shows.) *)
Theorem sending_providers_interchangeable
    process_env world world' runIds clerkOrgId log :
  runIds ≠ [] →
  let results := fst (dispatch process_env world runIds clerkOrgId log) in
  numeric_sending (outcome_of results Postmark) →
  numeric_sending (outcome_of results Instantly) →
  upstream_answer process_env world' runIds clerkOrgId log Apollo
    = upstream_answer process_env world runIds clerkOrgId log Apollo →
  upstream_answer process_env world' runIds clerkOrgId log EmailGen
    = upstream_answer process_env world runIds clerkOrgId log EmailGen →
  upstream_answer process_env world' runIds clerkOrgId log Postmark
    = upstream_answer process_env world runIds clerkOrgId log Instantly →
  upstream_answer process_env world' runIds clerkOrgId log Instantly
    = upstream_answer process_env world runIds clerkOrgId log Postmark →
  stats (fst (getAggregatedStats process_env world' runIds clerkOrgId log))
  = stats (fst (getAggregatedStats process_env world runIds clerkOrgId log)).
Proof.
  intros Hne results _ _ Ha He Hp Hi.
  rewrite !getAggregatedStats_results by done. rewrite !outcome_of_dispatch.
  rewrite Ha, He, Hp, Hi. cbn [provider_name].
  set (p := upstream_answer process_env world runIds clerkOrgId log Postmark).
  set (i := upstream_answer process_env world runIds clerkOrgId log Instantly).
  apply stats_ext. intros f. rewrite !stat_collect_and_merge.
  rewrite (data_or_empty_classify "postmark" "instantly" i).
  rewrite (data_or_empty_classify "instantly" "postmark" p).
  destruct f; try done; unfold js_plus; apply js_add_comm.
Qed.

Lemma sending_providers_interchangeable_witness :
  stats (fst (getAggregatedStats ∅ all_respond_swapped ["run-1"] "org-1" []))
  = stats (fst (getAggregatedStats ∅ all_respond ["run-1"] "org-1" [])).
Proof.
  apply sending_providers_interchangeable; try done.
  - intros f Hf. destruct f; try discriminate Hf; vm_compute; split; discriminate.
  - intros f Hf. destruct f; try discriminate Hf; vm_compute; split; discriminate.
Defined.

(** X12: when every sending counter of a successful postmark or instantly
    payload is absent, [null] or a safe integer, a field of the merged
    stats is [NaN] exactly when it is a sending counter that one of these
    payloads does not have; [leadsFound] and [emailsGenerated] are never
    [NaN]. *)
Theorem stat_NaN_iff process_env world runIds clerkOrgId log f :
  runIds ≠ [] →
  let results := fst (dispatch process_env world runIds clerkOrgId log) in
  let result := fst (getAggregatedStats process_env world runIds clerkOrgId log) in
  numeric_sending (outcome_of results Postmark) →
  numeric_sending (outcome_of results Instantly) →
  stat f (stats result) = NaN
  ↔ sourced_from f Postmark = true
    ∧ ∃ p data, (p = Postmark ∨ p = Instantly)
        ∧ outcome_of results p = Ok data ∧ data !! stat_key f = None.
Proof.
  intros Hne results result _ _. subst result.
  rewrite getAggregatedStats_results by done. fold results.
  rewrite stat_collect_and_merge.
  assert (Hside : ∀ outcome, sourced_from f Postmark = true →
    to_number (data_or_empty outcome !! stat_key f) = NaN
    ↔ ∃ data, outcome = Ok data ∧ data !! stat_key f = None).
  { intros outcome Hf. rewrite to_number_NaN. destruct outcome as [data|s e]; cbn.
    - split; [by exists data | by intros (? & [= <-] & ?)].
    - rewrite EMPTY_SENDING_STATS_lookup by done. split; [done | by intros (? & ? & _)]. }
  destruct (sourced_from f Postmark) eqn:Hf.
  - assert (Hplus : stat f (stats (collect_and_merge (outcome_of results Apollo)
        (outcome_of results EmailGen) (outcome_of results Postmark)
        (outcome_of results Instantly)))
      = js_plus (data_or_empty (outcome_of results Postmark) !! stat_key f)
          (data_or_empty (outcome_of results Instantly) !! stat_key f)).
    { rewrite stat_collect_and_merge. by destruct f. }
    rewrite stat_collect_and_merge in Hplus. rewrite Hplus. unfold js_plus.
    rewrite js_add_NaN, !Hside by done. split.
    + intros [(data & ? & ?) | (data & ? & ?)]; (split; [done|]);
        [exists Postmark, data | exists Instantly, data]; eauto.
    + intros (_ & p & data & [-> | ->] & ? & ?); [left | right]; eauto.
  - split; [|by intros [? _]].
    destruct f; try discriminate Hf; intros H; by apply field_or_zero_not_NaN in H.
Qed.

Lemma stat_NaN_iff_witness :
  stat EmailsBounced
    (stats (fst (getAggregatedStats ∅ postmark_omits_bounced ["run-1"] "org-1" [])))
  = NaN.
Proof.
  apply (stat_NaN_iff ∅ postmark_omits_bounced ["run-1"] "org-1" [] EmailsBounced);
    [done | | |].
  - intros f Hf. destruct f; try discriminate Hf; vm_compute;
      first [exact I | split; discriminate].
  - intros f Hf. destruct f; try discriminate Hf; vm_compute;
      first [exact I | split; discriminate].
  - split; [reflexivity|].
    exists Postmark, (delete "emailsBounced" POSTMARK_STATS).
    split; [by left|]. split; [reflexivity | by vm_compute].
Defined.

Lemma expected_key_cases p k :
  k ∈ expected_keys p →
  ∃ f, sourced_from f p = true ∧ stat_key f = k.
Proof.
  destruct p; cbn; intros Hk;
    repeat (apply elem_of_cons in Hk as [-> | Hk]);
    try (by apply elem_of_nil in Hk).
  all: first
    [ by exists LeadsFound | by exists EmailsGenerated | by exists EmailsSent
    | by exists EmailsOpened | by exists EmailsClicked | by exists EmailsReplied
    | by exists EmailsBounced | by exists RepliesWillingToMeet
    | by exists RepliesInterested | by exists RepliesNotInterested
    | by exists RepliesOutOfOffice | by exists RepliesUnsubscribe ].
Qed.

(** X13: only the expected counters are read.  Two calls in which each
    upstream fails in both, or succeeds in both with payloads that agree on
    the counters expected of it ([leadsFound] for apollo, [emailsGenerated]
    for emailgen, the ten sending counters for postmark and instantly),
    return the same stats: any other property of a payload is ignored. *)
Theorem extra_properties_ignored
    process_env world runIds clerkOrgId log
    process_env' world' runIds' clerkOrgId' log' :
  runIds ≠ [] → runIds' ≠ [] →
  let results := fst (dispatch process_env world runIds clerkOrgId log) in
  let results' := fst (dispatch process_env' world' runIds' clerkOrgId' log') in
  (∀ p, match outcome_of results p, outcome_of results' p with
        | Ok data, Ok data' =>
            ∀ key, key ∈ expected_keys p → data !! key = data' !! key
        | Err _ _, Err _ _ => True
        | _, _ => False
        end) →
  stats (fst (getAggregatedStats process_env world runIds clerkOrgId log))
  = stats (fst (getAggregatedStats process_env' world' runIds' clerkOrgId' log')).
Proof.
  intros Hne Hne' results results' Hsame.
  rewrite !getAggregatedStats_results by done. fold results results'.
  pose proof (Hsame Apollo) as Ha. pose proof (Hsame EmailGen) as He.
  pose proof (Hsame Postmark) as Hp. pose proof (Hsame Instantly) as Hi.
  apply stats_collect_and_merge_ext.
  - destruct (outcome_of results Apollo), (outcome_of results' Apollo); try done.
    cbn. rewrite Ha; [done | by left].
  - destruct (outcome_of results EmailGen), (outcome_of results' EmailGen); try done.
    cbn. rewrite He; [done | by left].
  - intros f Hf.
    destruct (outcome_of results Postmark), (outcome_of results' Postmark); try done.
    cbn. rewrite Hp; [done | by apply stat_key_expected].
  - intros f Hf.
    destruct (outcome_of results Instantly), (outcome_of results' Instantly); try done.
    cbn. rewrite Hi; [done | by apply stat_key_expected].
Qed.

Lemma extra_properties_ignored_witness :
  stats (fst (getAggregatedStats ∅ all_respond ["run-1"] "org-1" []))
  = stats (fst (getAggregatedStats ∅ apollo_minimal ["run-1"] "org-1" [])).
Proof.
  apply extra_properties_ignored; [done | done |].
  intros p. rewrite !outcome_of_dispatch.
  destruct p; cbn; intros key Hkey; [| | reflexivity | reflexivity];
    apply list_elem_of_singleton in Hkey as ->; reflexivity.
Defined.

(** X14: next to numbers a counter sent as JSON [null] counts as zero in
    every field: two calls whose outcomes differ only in that [null]
    counters of the one are [0] in the other return the same stats, when
    every sending counter of a successful sending payload is absent, [null]
    or a safe integer.  (Next to a string, [null + s] and [0 + s] are
    different strings.) *)
Theorem null_counter_is_zero
    process_env world runIds clerkOrgId log
    process_env' world' runIds' clerkOrgId' log' :
  runIds ≠ [] → runIds' ≠ [] →
  let results := fst (dispatch process_env world runIds clerkOrgId log) in
  let results' := fst (dispatch process_env' world' runIds' clerkOrgId' log') in
  numeric_sending (outcome_of results Postmark) →
  numeric_sending (outcome_of results Instantly) →
  (∀ p, match outcome_of results p, outcome_of results' p with
        | Ok data, Ok data' => ∀ key, data' !! key = null_as_zero (data !! key)
        | Err _ _, Err _ _ => True
        | _, _ => False
        end) →
  stats (fst (getAggregatedStats process_env world runIds clerkOrgId log))
  = stats (fst (getAggregatedStats process_env' world' runIds' clerkOrgId' log')).
Proof.
  intros Hne Hne' results results' _ _ Hsame.
  rewrite !getAggregatedStats_results by done. fold results results'.
  pose proof (Hsame Apollo) as Ha. pose proof (Hsame EmailGen) as He.
  pose proof (Hsame Postmark) as Hp. pose proof (Hsame Instantly) as Hi.
  apply stats_collect_and_merge_ext.
  - destruct (outcome_of results Apollo) as [d|], (outcome_of results' Apollo);
      try done. cbn. rewrite Ha. by destruct (d !! _) as [[]|].
  - destruct (outcome_of results EmailGen) as [d|], (outcome_of results' EmailGen);
      try done. cbn. rewrite He. by destruct (d !! _) as [[]|].
  - intros f Hf.
    destruct (outcome_of results Postmark) as [d|], (outcome_of results' Postmark);
      try done. cbn. rewrite Hp. by destruct (d !! _) as [[]|].
  - intros f Hf.
    destruct (outcome_of results Instantly) as [d|], (outcome_of results' Instantly);
      try done. cbn. rewrite Hi. by destruct (d !! _) as [[]|].
Qed.

Lemma null_as_zero_without_null (data : StatsObject) key :
  map_Forall (λ _ v, v ≠ JNull) data →
  data !! key = null_as_zero (data !! key).
Proof.
  intros Hall. destruct (data !! key) as [[|z]|] eqn:E; try done.
  by destruct (Hall _ _ E).
Qed.

Lemma null_counter_is_zero_witness :
  stats (fst (getAggregatedStats ∅ emailgen_null ["run-1"] "org-1" []))
  = stats (fst (getAggregatedStats ∅ emailgen_zero ["run-1"] "org-1" [])).
Proof.
  apply null_counter_is_zero; [done | done | | |].
  1, 2: intros f Hf; destruct f; try discriminate Hf; vm_compute; split; discriminate.
  intros p. rewrite !outcome_of_dispatch.
  destruct p; cbn [provider_name upstream_answer classify data_or_empty];
    cbn -[lookup]; intros key.
  - apply null_as_zero_without_null.
    eapply bool_decide_unpack. by vm_compute.
  - destruct (decide (key = "emailsGenerated")) as [-> | Hne]; [reflexivity|].
    by rewrite !lookup_singleton_ne.
  - apply null_as_zero_without_null.
    eapply bool_decide_unpack. by vm_compute.
  - apply null_as_zero_without_null.
    eapply bool_decide_unpack. by vm_compute.
Defined.

(** X15: in the stats a failed upstream cannot be told from one that
    reports zeros.  If one upstream fails in a call and, in another call,
    succeeds with every counter expected of it at 0, the three other
    outcomes being the same, both calls return the same stats; only
    [errors] differs. *)
Theorem failure_reads_as_zeros
    process_env world runIds clerkOrgId log
    process_env' world' runIds' clerkOrgId' log' p zeros :
  runIds ≠ [] → runIds' ≠ [] →
  let results := fst (dispatch process_env world runIds clerkOrgId log) in
  let results' := fst (dispatch process_env' world' runIds' clerkOrgId' log') in
  is_ok (outcome_of results p) = false →
  outcome_of results' p = Ok zeros →
  (∀ key, key ∈ expected_keys p → zeros !! key = Some (JNum 0)) →
  (∀ q, q ≠ p → outcome_of results' q = outcome_of results q) →
  stats (fst (getAggregatedStats process_env world runIds clerkOrgId log))
  = stats (fst (getAggregatedStats process_env' world' runIds' clerkOrgId' log')).
Proof.
  intros Hne Hne' results results' Hfail Hzero Hzeros Hsame.
  rewrite !getAggregatedStats_results by done. fold results results'.
  destruct (outcome_of results p) as [|s e] eqn:Hp; [done|].
  destruct p.
  - rewrite Hp, Hzero, !Hsame by done. apply stats_collect_and_merge_ext; try done.
    cbn. rewrite Hzeros; [done | by left].
  - rewrite Hp, Hzero, !Hsame by done. apply stats_collect_and_merge_ext; try done.
    cbn. rewrite Hzeros; [done | by left].
  - rewrite Hp, Hzero, !Hsame by done. apply stats_collect_and_merge_ext; try done.
    intros f Hf. cbn. rewrite EMPTY_SENDING_STATS_lookup by done.
    rewrite Hzeros; [done | by apply stat_key_expected].
  - rewrite Hp, Hzero, !Hsame by done. apply stats_collect_and_merge_ext; try done.
    intros f Hf. cbn. rewrite EMPTY_SENDING_STATS_lookup by done.
    rewrite Hzeros; [done | by apply stat_key_expected].
Qed.

Lemma failure_reads_as_zeros_witness :
  stats (fst (getAggregatedStats ∅ postmark_fails ["run-1"] "org-1" []))
  = stats (fst (getAggregatedStats ∅ postmark_zeros ["run-1"] "org-1" [])).
Proof.
  apply (failure_reads_as_zeros ∅ postmark_fails ["run-1"] "org-1" []
           ∅ postmark_zeros ["run-1"] "org-1" [] Postmark EMPTY_SENDING_STATS);
    try done.
  - intros key Hkey.
    destruct (expected_key_cases Postmark _ Hkey) as (f & Hf & <-).
    by apply EMPTY_SENDING_STATS_lookup.
  - intros q Hq. by destruct q.
Defined.

(** * More on the by-model variant *)

(** X16: [getStatsByModel] reports no error exactly when it made no call
    (empty [runIds]) or the response had a success status and a body that
    parsed to something other than [null]; in that case it returns the
    body's [stats] array as it is, or the empty list when [stats] is absent
    or null. *)
Theorem getStatsByModel_no_error_iff process_env world runIds log :
  let result := fst (getStatsByModel process_env world runIds log) in
  (ByModel.errors result = []
   ↔ runIds = []
     ∨ ∃ r field, world (length log) (by_model_request process_env runIds)
                  = Resolves r
         ∧ ok r = true ∧ json r = JsonBody field)
  ∧ (∀ r v, runIds ≠ [] →
       world (length log) (by_model_request process_env runIds) = Resolves r →
       ok r = true → json r = JsonBody (StatsValue v) →
       result = ByModel.mk v []).
Proof.
  cbn zeta. destruct runIds as [|runId runIds].
  { split; [|done]. cbn. split; [by left | done]. }
  rewrite getStatsByModel_run by done. cbn [fst]. split.
  - split.
    + intros Herr. right.
      destruct (world _ _) as [r|e]; [|done].
      destruct (ok r) eqn:Hok; [|done].
      destruct (json r) as [e| |field] eqn:Hj; [done | done |].
      by exists r, field.
    + intros [[=] | (r & field & -> & -> & ->)]. by destruct field.
  - intros r v _ -> -> ->. done.
Qed.

(** X17: whatever the answer, [getStatsByModel] returns at most one error,
    always under the name ["emailgen"], and never a non-empty [stats]
    together with an error; with run identifiers it issues exactly one
    POST to [/stats/by-model] of the email generation service, whose body
    is the run identifiers and which carries no [X-Clerk-Org-Id] header. *)
Theorem getStatsByModel_shape process_env world runIds log :
  let run := getStatsByModel process_env world runIds log in
  (length (ByModel.errors (fst run)) ≤ 1)%nat
  ∧ Forall (λ err, service err = "emailgen") (ByModel.errors (fst run))
  ∧ (ByModel.errors (fst run) ≠ [] → ByModel.stats (fst run) = [])
  ∧ (runIds ≠ [] →
     ∃ req, snd run = (log ++ [req])%list
       ∧ url req = EMAILGENERATION_SERVICE_URL process_env +:+ "/stats/by-model"
       ∧ method req = "POST" ∧ body_runIds req = runIds
       ∧ headers req !! "X-Clerk-Org-Id" = None
       ∧ headers req !! "Content-Type" = Some "application/json"
       ∧ headers req !! "X-API-Key"
         = or_null (EMAILGENERATION_SERVICE_API_KEY process_env)).
Proof.
  cbn zeta. destruct runIds as [|runId runIds].
  { change (getStatsByModel process_env world [] log)
      with (ByModel.mk [] [], log).
    cbn. split; [lia|]. split; [constructor|]. by split. }
  rewrite getStatsByModel_run by done. cbn [fst snd].
  split; [|split; [|split]].
  - destruct (world _ _) as [r|e]; [|cbn; lia].
    destruct (ok r); [|cbn; lia]. destruct (json r) as [| |[]]; cbn; lia.
  - destruct (world _ _) as [r|e]; [|by repeat constructor].
    destruct (ok r); [|by repeat constructor].
    destruct (json r) as [| |[]]; by repeat constructor.
  - destruct (world _ _) as [r|e]; [|done].
    destruct (ok r); [|done]. by destruct (json r) as [| |[]].
  - intros _. eexists. split; [reflexivity|]. cbn [by_model_request url method
      body_runIds headers]. repeat split.
    all: unfold by_model_headers, or_null, truthy;
      destruct (EMAILGENERATION_SERVICE_API_KEY process_env) as [k|];
      [destruct (String.eqb k "")|]; cbn; by simplify_map_eq.
Qed.

Lemma getStatsByModel_shape_witness :
  ∃ req,
    snd (getStatsByModel {["EMAILGENERATION_SERVICE_API_KEY" := "eg-key"]}
           (mockFetch [okResponse modelData]) ["run-1"] []) = [req]
    ∧ headers req !! "X-Clerk-Org-Id" = None
    ∧ headers req !! "X-API-Key" = Some "eg-key".
Proof.
  destruct (proj2 (proj2 (proj2
    (getStatsByModel_shape {["EMAILGENERATION_SERVICE_API_KEY" := "eg-key"]}
       (mockFetch [okResponse modelData]) ["run-1"] []))))
    as (req & Hlog & _ & _ & _ & Horg & _ & Hkey); [done|].
  exists req. split; [exact Hlog|]. split; [exact Horg | exact Hkey].
Defined.

(** * More on the grouping of leads *)

(** X18: the ids of the companies are positional: the company at index
    [i] of the result has id ["company-<i>"], so the ids of one result are
    pairwise distinct. *)
Theorem company_ids_positional (leads : list LeadData.t) :
  let companies := aggregateCompaniesFromLeads leads in
  CompanyData.id <$> companies
  = (λ index, "company-" +:+ pretty index) <$> seq 0 (length companies)
  ∧ NoDup (CompanyData.id <$> companies).
Proof.
  cbn zeta.
  assert (Hids : CompanyData.id <$> aggregateCompaniesFromLeads leads
    = (λ index, "company-" +:+ pretty index)
        <$> seq 0 (length (aggregateCompaniesFromLeads leads))).
  { unfold aggregateCompaniesFromLeads. rewrite fmap_imap, length_imap.
    rewrite <- imap_seq_0. apply imap_ext. by intros i [k e] _. }
  split; [done|]. rewrite Hids. apply NoDup_fmap_2; [|apply NoDup_seq].
  intros i j Hij. cbn in Hij. by simplify_eq.
Qed.

Lemma leads_named_cons n lead leads :
  leads_named n (lead :: leads)
  = if decide (LeadData.organizationName lead = Some n)
    then lead :: leads_named n leads else leads_named n leads.
Proof. unfold leads_named. by rewrite filter_cons. Qed.

Lemma sum_leads_named_miss (names : list string) lead leads :
  (∀ n, n ∈ names → LeadData.organizationName lead ≠ Some n) →
  sum_list_with (λ n, length (leads_named n (lead :: leads))) names
  = sum_list_with (λ n, length (leads_named n leads)) names.
Proof.
  induction names as [|n names IH]; intros Hmiss; [done|]. cbn [sum_list_with].
  rewrite leads_named_cons, decide_False by (apply Hmiss; by left).
  f_equal. apply IH. intros m Hm. apply Hmiss. by right.
Qed.

Lemma sum_leads_named_hit (names : list string) lead leads o :
  NoDup names → o ∈ names →
  LeadData.organizationName lead = Some o →
  sum_list_with (λ n, length (leads_named n (lead :: leads))) names
  = S (sum_list_with (λ n, length (leads_named n leads)) names).
Proof.
  intros Hnodup Ho Hname.
  induction Hnodup as [|n names Hn Hnodup IH]; [by apply elem_of_nil in Ho|].
  cbn [sum_list_with]. rewrite leads_named_cons.
  destruct (decide (LeadData.organizationName lead = Some n)) as [Heq|Hneq].
  - assert (n = o) as -> by congruence. cbn [length].
    rewrite sum_leads_named_miss; [done|].
    intros m Hm Hm'. assert (m = o) as -> by congruence. done.
  - apply elem_of_cons in Ho as [-> | Ho]; [done|]. rewrite IH by done. lia.
Qed.

(** Each lead with a non-empty name is counted under exactly one of the
    names of a duplicate-free list that covers them. *)
Lemma sum_leads_named (names : list string) (leads : list LeadData.t) :
  NoDup names → "" ∉ names →
  (∀ lead n, lead ∈ leads → LeadData.organizationName lead = Some n → n ≠ "" →
     n ∈ names) →
  sum_list_with (λ n, length (leads_named n leads)) names
  = length (filter (λ lead, truthy (LeadData.organizationName lead) = true) leads).
Proof.
  intros Hnodup Hempty. induction leads as [|lead leads IH]; intros Hin.
  - cbn. clear. induction names as [|n names IHn]; [done|]. by cbn.
  - assert (Hrest : sum_list_with (λ n, length (leads_named n leads)) names
      = length (filter (λ lead, truthy (LeadData.organizationName lead) = true) leads)).
    { apply IH. intros l n Hl. apply Hin. by right. }
    rewrite filter_cons.
    destruct (LeadData.organizationName lead) as [o|] eqn:Ho.
    + destruct (decide (o = "")) as [-> | Hne].
      * rewrite decide_False by done. rewrite <- Hrest.
        apply sum_leads_named_miss. intros n Hn Hn'. rewrite Ho in Hn'.
        by simplify_eq.
      * rewrite decide_True by by apply truthy_Some.
        cbn [length]. rewrite <- Hrest.
        apply (sum_leads_named_hit _ _ _ o); [done | | done].
        apply (Hin lead); [by left | done | done].
    + rewrite decide_False by done. rewrite <- Hrest.
      apply sum_leads_named_miss. intros n Hn Hn'. by rewrite Ho in Hn'.
Qed.

Lemma sum_list_with_names {A} (f : A → nat) (g : string → nat) (h : A → string)
    (l : list A) :
  (∀ x, x ∈ l → f x = g (h x)) →
  sum_list_with f l = sum_list_with g (h <$> l).
Proof.
  induction l as [|x l IH]; intros Hfg; [done|]. cbn.
  rewrite Hfg by by left. f_equal. apply IH. intros y Hy. apply Hfg. by right.
Qed.

Lemma sum_list_with_ge_length {A} (f : A → nat) (l : list A) :
  (∀ x, x ∈ l → (1 ≤ f x)%nat) → (length l ≤ sum_list_with f l)%nat.
Proof.
  induction l as [|x l IH]; intros Hf; [done|]. cbn.
  assert (1 ≤ f x)%nat by (apply Hf; by left).
  assert (length l ≤ sum_list_with f l)%nat by (apply IH; intros y Hy; apply Hf; by right).
  lia.
Qed.

Lemma length_omap_le {A B} (f : A → option B) (l : list A) :
  (length (omap f l) ≤ length l)%nat.
Proof. induction l as [|x l IH]; [done|]. cbn. destruct (f x); cbn; lia. Qed.

Lemma company_count leads c :
  c ∈ aggregateCompaniesFromLeads leads →
  CompanyData.leadsCount c = length (leads_named (CompanyData.name c) leads)
  ∧ (1 ≤ CompanyData.leadsCount c)%nat
  ∧ (length (CompanyData.enrichmentRunIds c) ≤ CompanyData.leadsCount c)%nat.
Proof.
  intros (e & He & _ & _ & _ & Hc & Hr)%companies_elem.
  apply entry_for_Some in He as (_ & _ & Hc' & Hr' & first & Hf & _).
  rewrite Hc, Hr, Hc', Hr'. split; [done|]. split.
  - destruct (leads_named _ leads); [done | cbn; lia].
  - apply length_omap_le.
Qed.

(** X19: no lead is lost or counted twice: the [leadsCount] of the
    companies add up to the number of leads whose [organizationName] is
    neither null nor empty.  Every company stands for at least one lead and
    has at most one run identifier per lead, so there are never more
    companies than leads. *)
Theorem company_lead_counts (leads : list LeadData.t) :
  let companies := aggregateCompaniesFromLeads leads in
  sum_list_with CompanyData.leadsCount companies
  = length (filter (λ lead, truthy (LeadData.organizationName lead) = true) leads)
  ∧ Forall (λ c, (1 ≤ CompanyData.leadsCount c)%nat
               ∧ (length (CompanyData.enrichmentRunIds c)
                  ≤ CompanyData.leadsCount c)%nat)
      companies
  ∧ (length companies ≤ length leads)%nat.
Proof.
  cbn zeta.
  destruct (grouped_foldl leads) as (Hbind & Hnodup & Hkeys).
  assert (Hsum : sum_list_with CompanyData.leadsCount (aggregateCompaniesFromLeads leads)
    = length (filter (λ lead, truthy (LeadData.organizationName lead) = true) leads)).
  { rewrite (sum_list_with_names _ (λ n, length (leads_named n leads)) CompanyData.name)
      by (intros c Hc; by apply company_count).
    rewrite companies_names. apply sum_leads_named; [done | |].
    - rewrite Hkeys, Hbind, entry_for_empty_name. by intros [].
    - intros lead n Hl Hn Hne. rewrite Hkeys, Hbind, entry_for_is_Some. eauto. }
  split; [done|]. split.
  - apply Forall_forall. intros c Hc. by apply company_count in Hc as (_ & ? & ?).
  - pose proof (sum_list_with_ge_length CompanyData.leadsCount
      (aggregateCompaniesFromLeads leads)) as Hge.
    pose proof (length_filter (λ lead, truthy (LeadData.organizationName lead) = true)
      leads) as Hle.
    rewrite <- Hsum in Hle. etrans; [apply Hge|exact Hle].
    intros c Hc. by apply company_count in Hc as (_ & ? & _).
Qed.

Lemma key_order_group_lead m lead :
  key_order (group_lead m lead) = key_order m
  ∨ ∃ o, LeadData.organizationName lead = Some o ∧ o ≠ ""
      ∧ bindings m !! o = None
      ∧ key_order (group_lead m lead) = (key_order m ++ [o])%list.
Proof.
  unfold group_lead. destruct (LeadData.organizationName lead) as [o|]; [|by left].
  destruct (truthy (Some o)) eqn:Ht; cbn [negb]; [|by left].
  apply truthy_Some in Ht. unfold JsMap_get.
  destruct (bindings m !! o) eqn:Hm; [by left|].
  right. exists o. unfold JsMap_set. cbn. by rewrite Hm.
Qed.

Lemma key_order_foldl_prefix m leads :
  key_order m `prefix_of` key_order (foldl group_lead m leads).
Proof.
  revert m. induction leads as [|lead leads IH]; intros m; [done|]. cbn.
  etrans; [|apply IH].
  destruct (key_order_group_lead m lead) as [-> | (o & _ & _ & _ & ->)];
    [done | by apply prefix_app_r].
Qed.

Lemma entries_lookup_index {V} (b : gmap string V) (keys : list string) i :
  (∀ k, k ∈ keys → is_Some (b !! k)) →
  omap (λ k, (k,.) <$> b !! k) keys !! i
  = keys !! i ≫= (λ k, (k,.) <$> b !! k).
Proof.
  revert i. induction keys as [|k keys IH]; intros i Hkeys; [done|].
  cbn [omap list_omap]. destruct (Hkeys k) as [v Hv]; [by left|].
  rewrite Hv. cbn. destruct i as [|i]; cbn.
  - by rewrite Hv.
  - apply IH. intros k' Hk'. apply Hkeys. by right.
Qed.

(** The company at an index, from the key at that index. *)
Lemma companies_lookup leads i c :
  aggregateCompaniesFromLeads leads !! i = Some c
  ↔ ∃ k e, key_order (foldl group_lead JsMap_new leads) !! i = Some k
      ∧ entry_for leads k = Some e
      ∧ c = {| CompanyData.id := "company-" +:+ pretty i;
               CompanyData.name := CompanyEntry.name e;
               CompanyData.domain := CompanyEntry.domain e;
               CompanyData.industry := CompanyEntry.industry e;
               CompanyData.employeeCount := CompanyEntry.employeeCount e;
               CompanyData.leadsCount := CompanyEntry.leadsCount e;
               CompanyData.enrichmentRunIds := CompanyEntry.enrichmentRunIds e |}.
Proof.
  destruct (grouped_foldl leads) as (Hbind & _ & Hkeys).
  unfold aggregateCompaniesFromLeads.
  set (m := foldl group_lead JsMap_new leads) in *.
  rewrite list_lookup_imap. unfold JsMap_entries.
  rewrite entries_lookup_index by (intros k; apply Hkeys).
  destruct (key_order m !! i) as [k|]; cbn.
  - rewrite Hbind. destruct (entry_for leads k) as [e|] eqn:He; cbn.
    + split.
      * intros [= <-]. exists k, e. by repeat split.
      * intros (k' & e' & Hk' & He' & ->). by simplify_eq.
    + split; [done|]. intros (k' & e' & Hk' & He' & _). by simplify_eq.
  - split; [done|]. by intros (k' & e' & Hk' & _).
Qed.

Lemma entry_for_app leads leads' n e :
  entry_for leads n = Some e →
  ∃ e', entry_for (leads ++ leads') n = Some e'
    ∧ CompanyEntry.name e' = CompanyEntry.name e
    ∧ CompanyEntry.domain e' = CompanyEntry.domain e
    ∧ CompanyEntry.industry e' = CompanyEntry.industry e
    ∧ CompanyEntry.employeeCount e' = CompanyEntry.employeeCount e
    ∧ CompanyEntry.leadsCount e'
      = (CompanyEntry.leadsCount e + length (leads_named n leads'))%nat
    ∧ CompanyEntry.enrichmentRunIds e'
      = (CompanyEntry.enrichmentRunIds e ++
         omap (λ lead, or_null (LeadData.enrichmentRunId lead))
           (leads_named n leads'))%list.
Proof.
  unfold entry_for. case_decide; [done|].
  assert (Happ : leads_named n (leads ++ leads')
    = (leads_named n leads ++ leads_named n leads')%list)
    by (unfold leads_named; apply filter_app).
  rewrite Happ. generalize (leads_named n leads) (leads_named n leads').
  intros g g'. destruct (head g) as [first|] eqn:Hh; [|done].
  intros [= <-].
  assert (head (g ++ g') = Some first) as -> by (by destruct g).
  eexists. split; [reflexivity|].
  cbn [CompanyEntry.name CompanyEntry.domain CompanyEntry.industry
       CompanyEntry.employeeCount CompanyEntry.leadsCount
       CompanyEntry.enrichmentRunIds].
  rewrite length_app, omap_app. by repeat split.
Qed.

(** X20: appending leads never disturbs the companies already found.  The
    company at index [i] for [leads] is still at index [i] for
    [leads ++ more], with the same id, name, domain, industry and employee
    count; its [leadsCount] grows by the number of leads of [more] with its
    name, whose run identifiers are appended to its [enrichmentRunIds]. *)
Theorem companies_stable_under_append (leads more : list LeadData.t) i c :
  aggregateCompaniesFromLeads leads !! i = Some c →
  ∃ c', aggregateCompaniesFromLeads (leads ++ more) !! i = Some c'
    ∧ CompanyData.id c' = CompanyData.id c
    ∧ CompanyData.name c' = CompanyData.name c
    ∧ CompanyData.domain c' = CompanyData.domain c
    ∧ CompanyData.industry c' = CompanyData.industry c
    ∧ CompanyData.employeeCount c' = CompanyData.employeeCount c
    ∧ CompanyData.leadsCount c'
      = (CompanyData.leadsCount c
         + length (leads_named (CompanyData.name c) more))%nat
    ∧ CompanyData.enrichmentRunIds c'
      = (CompanyData.enrichmentRunIds c ++
         omap (λ lead, or_null (LeadData.enrichmentRunId lead))
           (leads_named (CompanyData.name c) more))%list.
Proof.
  intros (k & e & Hk & He & ->)%companies_lookup.
  destruct (entry_for_app leads more k e He)
    as (e' & He' & Hn & Hd & Hi & Hs & Hc & Hr).
  assert (Hname : CompanyEntry.name e = k) by by apply entry_for_Some in He as (_ & ? & _).
  eexists. split.
  - apply companies_lookup. exists k, e'. split; [|split; [done | reflexivity]].
    rewrite foldl_app. eapply prefix_lookup_Some; [exact Hk|].
    apply key_order_foldl_prefix.
  - cbn. rewrite Hname in *. split_and!; first [reflexivity | assumption].
Qed.

Lemma companies_stable_under_append_witness :
  ∃ c', aggregateCompaniesFromLeads (sample_leads ++ [lead_acme]) !! 0 = Some c'
    ∧ CompanyData.id c' = "company-0"
    ∧ CompanyData.name c' = "Acme".
Proof.
  destruct (companies_stable_under_append sample_leads [lead_acme] 0
    (CompanyData.mk "company-0" "Acme" (Some "acme.com") None None 2
       ["run-1"; "run-2"]) eq_refl)
    as (c' & Hc' & Hid & Hname & _).
  exists c'. split; [exact Hc'|]. split; [exact Hid | exact Hname].
Defined.

Lemma no_lead_named leads o :
  o ≠ "" → entry_for leads o = None →
  ∀ lead, lead ∈ leads → LeadData.organizationName lead ≠ Some o.
Proof.
  intros Hne Hnone lead Hin Hname.
  assert (is_Some (entry_for leads o)) as [e He]
    by (apply entry_for_is_Some; eauto).
  congruence.
Qed.

(** The keys of [companyMap] are in the order in which their first lead
    comes in the input. *)
Lemma key_order_first_leads leads i j a b :
  (i < j)%nat →
  key_order (foldl group_lead JsMap_new leads) !! i = Some a →
  key_order (foldl group_lead JsMap_new leads) !! j = Some b →
  ∃ k lead, leads !! k = Some lead
    ∧ LeadData.organizationName lead = Some a
    ∧ ∀ k' lead', (k' ≤ k)%nat → leads !! k' = Some lead' →
        LeadData.organizationName lead' ≠ Some b.
Proof.
  revert i j a b. induction leads as [|x leads IH] using rev_ind;
    intros i j a b Hij Ha Hb; [done|].
  rewrite foldl_app in Ha, Hb. cbn [foldl] in Ha, Hb.
  destruct (grouped_foldl leads) as (Hbind & Hnodup & Hkeys).
  set (m := foldl group_lead JsMap_new leads) in *.
  assert (Hold : ∀ a b, (i < j)%nat → key_order m !! i = Some a →
    key_order m !! j = Some b →
    ∃ k lead, (leads ++ [x])%list !! k = Some lead
      ∧ LeadData.organizationName lead = Some a
      ∧ ∀ k' lead', (k' ≤ k)%nat → (leads ++ [x])%list !! k' = Some lead' →
          LeadData.organizationName lead' ≠ Some b).
  { intros a' b' _ Ha' Hb'.
    destruct (IH i j a' b' Hij Ha' Hb') as (k & lead & Hk & Hname & Hbefore).
    exists k, lead. split; [by apply lookup_app_l_Some|]. split; [done|].
    intros k' lead' Hk' Hlead'. apply (Hbefore k'); [done|].
    rewrite lookup_app_l in Hlead'; [done|].
    apply lookup_lt_Some in Hk. lia. }
  destruct (key_order_group_lead m x) as [Hsame | (o & Ho & Hne & Hnew & Happ)].
  { rewrite Hsame in Ha, Hb. by apply Hold. }
  rewrite Happ in Ha, Hb.
  destruct (decide (j < length (key_order m))%nat) as [Hj | Hj].
  { rewrite lookup_app_l in Ha, Hb by lia. by apply Hold. }
  rewrite lookup_app_r in Hb by lia.
  destruct (j - length (key_order m))%nat as [|n] eqn:Hn; [|by destruct n].
  cbn in Hb. injection Hb as <-.
  rewrite lookup_app_l in Ha by lia.
  assert (Hin : a ∈ key_order m) by (apply list_elem_of_lookup; eauto).
  rewrite Hkeys, Hbind, entry_for_is_Some in Hin.
  destruct Hin as (_ & lead & Hlead & Hname).
  apply list_elem_of_lookup in Hlead as (k & Hk).
  exists k, lead. split; [by apply lookup_app_l_Some|]. split; [done|].
  intros k' lead' Hk' Hlead'.
  rewrite lookup_app_l in Hlead' by (apply lookup_lt_Some in Hk; lia).
  apply (no_lead_named leads o); [done | by rewrite <- Hbind |].
  apply list_elem_of_lookup. eauto.
Qed.

(** X21: the companies come in the order in which they first appear among
    the leads: if company [a] is listed before company [b], a lead of [a]
    comes in the input before every lead of [b]. *)
Theorem companies_in_order_of_first_lead (leads : list LeadData.t) i j ca cb :
  (i < j)%nat →
  aggregateCompaniesFromLeads leads !! i = Some ca →
  aggregateCompaniesFromLeads leads !! j = Some cb →
  ∃ k lead, leads !! k = Some lead
    ∧ LeadData.organizationName lead = Some (CompanyData.name ca)
    ∧ ∀ k' lead', (k' ≤ k)%nat → leads !! k' = Some lead' →
        LeadData.organizationName lead' ≠ Some (CompanyData.name cb).
Proof.
  intros Hij (a & ea & Ha & Hea & ->)%companies_lookup
             (b & eb & Hb & Heb & ->)%companies_lookup.
  cbn [CompanyData.name].
  apply entry_for_Some in Hea as (_ & -> & _).
  apply entry_for_Some in Heb as (_ & -> & _).
  by apply (key_order_first_leads leads i j).
Qed.

Lemma companies_in_order_of_first_lead_witness :
  ∃ k lead, sample_leads !! k = Some lead
    ∧ LeadData.organizationName lead = Some "Acme"
    ∧ ∀ k' lead', (k' ≤ k)%nat → sample_leads !! k' = Some lead' →
        LeadData.organizationName lead' ≠ Some "Globex".
Proof.
  exact (companies_in_order_of_first_lead sample_leads 0 1
    (CompanyData.mk "company-0" "Acme" (Some "acme.com") None None 2
       ["run-1"; "run-2"])
    (CompanyData.mk "company-1" "Globex" None None None 1 [])
    ltac:(lia) eq_refl eq_refl).
Defined.

(** * Middleware and run summaries *)

(** X22: [requireApiKey] fails closed.  A request goes on to the next
    handler exactly when [CAMPAIGN_SERVICE_API_KEY] is set to a non-empty
    key and the [x-api-key] header equals it; with the variable unset or
    empty every request is answered 500, also one whose header is empty. *)
Theorem requireApiKey_fails_closed process_env x_api_key :
  (requireApiKey process_env x_api_key = CallNext
   ↔ ∃ key, key ≠ ""
       ∧ process_env !! "CAMPAIGN_SERVICE_API_KEY" = Some key
       ∧ x_api_key = Some key)
  ∧ (requireApiKey process_env x_api_key = Respond 500 "API key not configured"
     ↔ process_env !! "CAMPAIGN_SERVICE_API_KEY" = None
       ∨ process_env !! "CAMPAIGN_SERVICE_API_KEY" = Some "").
Proof.
  unfold requireApiKey.
  destruct (process_env !! "CAMPAIGN_SERVICE_API_KEY") as [expected|] eqn:He.
  2:{ cbn. split; [|split; [by left | done]].
      split; [done | by intros (? & _ & ? & _)]. }
  destruct (truthy (Some expected)) eqn:Ht; cbn [negb].
  - apply truthy_Some in Ht. split.
    + destruct (truthy x_api_key) eqn:Hx; cbn [negb orb].
      * case_bool_decide as Heq; cbn [negb].
        -- split; [|done]. intros _. exists expected. by rewrite Heq.
        -- split; [done|]. intros (key & _ & [= <-] & ->). done.
      * split; [done|]. intros (key & Hkey & [= <-] & ->).
        apply truthy_Some in Hkey. congruence.
    + split; [|by intros [[=] | [= ->]]].
      destruct (negb (truthy x_api_key) || _); done.
  - assert (expected = "") as ->.
    { destruct (decide (expected = "")) as [|Hne]; [done|].
      apply truthy_Some in Hne. congruence. }
    split; [|split; [by right | done]].
    split; [done | by intros (key & Hkey & [= <-] & _)].
Qed.

Lemma length_filter_status (runs : list Run) :
  (length (filter (λ r, run_status r = "completed") runs)
   + length (filter (λ r, run_status r = "failed") runs)
   + length (filter (λ r, run_status r = "running") runs)
   + length (filter (λ r, ¬ (run_status r = "completed" ∨ run_status r = "failed"
                            ∨ run_status r = "running")) runs)
   = length runs)%nat.
Proof.
  induction runs as [|r runs IH]; [done|].
  rewrite !filter_cons.
  destruct (decide (run_status r = "completed")) as [Hc|Hc];
  destruct (decide (run_status r = "failed")) as [Hf|Hf];
  destruct (decide (run_status r = "running")) as [Hr|Hr];
  try (rewrite Hc in Hf; discriminate Hf);
  try (rewrite Hc in Hr; discriminate Hr);
  try (rewrite Hf in Hr; discriminate Hr);
  case_decide as Hother; cbn [length]; try lia;
  exfalso; first [ apply Hother; tauto | tauto ].
Qed.

(** X23: in the run summary of the campaign stats routes the completed,
    failed and running counts never exceed the total together, and they add
    up to it exactly when every run has one of these three statuses. *)
Theorem run_summary_partition (runs : list Run) :
  let s := run_summary runs in
  (completed s + failed s + running s ≤ total s)%nat
  ∧ ((completed s + failed s + running s = total s)%nat
     ↔ Forall (λ r, run_status r = "completed" ∨ run_status r = "failed"
                    ∨ run_status r = "running") runs).
Proof.
  cbn. pose proof (length_filter_status runs) as Hsum. split; [lia|].
  split.
  - intros Heq.
    assert (Hnone : filter (λ r, ¬ (run_status r = "completed"
        ∨ run_status r = "failed" ∨ run_status r = "running")) runs = [])
      by (apply length_zero_iff_nil; lia).
    apply Forall_forall. intros r Hr.
    destruct (decide (run_status r = "completed" ∨ run_status r = "failed"
                      ∨ run_status r = "running")) as [|Hnot]; [done|].
    assert (Hin : r ∈ filter (λ r, ¬ (run_status r = "completed"
        ∨ run_status r = "failed" ∨ run_status r = "running")) runs)
      by by apply list_elem_of_filter.
    rewrite Hnone in Hin. by apply elem_of_nil in Hin.
  - intros Hall.
    assert (Hnone : filter (λ r, ¬ (run_status r = "completed"
        ∨ run_status r = "failed" ∨ run_status r = "running")) runs = []).
    { clear Hsum. induction Hall as [|r runs Hr Hall IH]; [done|].
      rewrite filter_cons. by rewrite decide_False by (by intros Hnot). }
    rewrite Hnone in Hsum. cbn in Hsum. lia.
Qed.
